(** * Botan's generic Merkle-Damgard hash engine (src/lib/hash/mdx_hash/mdx_hash.h)

    A shallow embedding of [MerkleDamgard_Hash<MD>]: the three public
    operations [update], [final] and [clear], the private finalization
    steps, and the helpers they call.  Stateful code is written in a small
    state-and-exception monad; every [MD::compress_n] invocation is recorded
    so that statements about what reaches the compression function can be
    made. *)

From Stdlib Require Import ZArith List Bool Arith Lia.
From Stdlib Require String Ascii OrderedTypeEx.
Import ListNotations.
Import String.StringSyntax.
Delimit Scope string_scope with string.

Local Open Scope nat_scope.

(** ** Bytes, words and 64-bit arithmetic *)

(** [uint8_t]: an 8-bit value, kept as an integer. *)
Abbreviation byte := Z (only parsing).

(** [std::span<const uint8_t>]: a run of bytes. *)
Abbreviation span := (list byte) (only parsing).

(** [uint64_t] arithmetic wraps around. *)
Definition wrap64 (x : Z) : Z := (x mod 2 ^ 64)%Z.

Definition is_uint64 (x : Z) : Prop := (0 <= x < 2 ^ 64)%Z.

(** Modelled from the spec: [is_power_of_2] of botan/internal/bit_ops.h,
    which is not among the sources; the spec only says "power-of-two". *)
Definition is_power_of_2 (n : nat) : bool :=
  (0 <? n) && (Z.land (Z.of_nat n) (Z.of_nat n - 1) =? 0)%Z.

(** Modelled from the spec: [store_le] / [store_be] of
    botan/internal/loadstor.h, which is not among the sources.  The value is
    serialized into [n] bytes, least significant byte first for
    little-endian, most significant byte first for big-endian. *)
Definition get_byte_le (x : Z) (i : nat) : byte :=
  Z.land (Z.shiftr x (8 * Z.of_nat i)) 255.

Definition store_le (n : nat) (x : Z) : span := map (get_byte_le x) (seq 0 n).

Definition store_be (n : nat) (x : Z) : span := rev (store_le n x).

(** Reading back, used to state what a serialized field contains. *)
Definition load_le (bs : span) : Z :=
  fold_right (fun b acc => (b + 256 * acc)%Z) 0%Z bs.

Definition load_be (bs : span) : Z := load_le (rev bs).

(** ** The hash description [MD] *)

Inductive MD_Endian := Little | Big.

(** The digest is a contiguous container of machine words. *)
Abbreviation digest_type := (list Z) (only parsing).

(** The concept [md_hash_implementation]: what the engine needs from [MD],
    with the numeric requirements of the concept as a checked field.
    [init] overwrites the digest, so it is given by the value it stores;
    [word_bytes] is the size of one element of [digest_type]. *)
Record md_hash_implementation := {
  word_bytes : nat;
  init : digest_type;
  compress_n : digest_type -> span -> nat -> digest_type;
  bit_endianness : MD_Endian;
  byte_endianness : MD_Endian;
  block_bytes : nat;
  output_bytes : nat;
  ctr_bytes : nat;
  md_requires :
    (64 <=? block_bytes) && is_power_of_2 block_bytes &&
    (16 <=? output_bytes) && (8 <=? ctr_bytes) &&
    is_power_of_2 ctr_bytes && (ctr_bytes <? block_bytes) = true
}.

(** Modelled from the spec: [copy_out_vec_le] / [copy_out_vec_be] of
    botan/internal/loadstor.h, which is not among the sources.  The first
    [out_bytes] bytes of the word-by-word serialization of the digest. *)
Definition copy_out_vec_le (wb out_bytes : nat) (d : digest_type) : span :=
  firstn out_bytes (flat_map (store_le wb) d).

Definition copy_out_vec_be (wb out_bytes : nat) (d : digest_type) : span :=
  firstn out_bytes (flat_map (store_be wb) d).

(** ** Helpers of the engine *)

(** Modelled from the spec: [BufferSlicer] of botan/internal/stl_util.h,
    which is not among the sources.  An input cursor: the bytes not yet
    taken.  [take] fails when asked for more than remains. *)
Module BufferSlicer.

Definition t := span.

Definition empty (s : t) : bool :=
  match s with [] => true | _ :: _ => false end.

Definition remaining (s : t) : nat := length s.

Definition take (s : t) (n : nat) : option (span * t) :=
  if n <=? remaining s then Some (firstn n s, skipn n s) else None.

End BufferSlicer.

(** Modelled from the spec: [AlignmentBuffer<uint8_t, BLOCK_SIZE>] of
  botan/internal/alignment_buffer.h, which is not among the sources.  The
  spec leaves the bytes beyond the cursor undefined, so the buffer is
  represented by its filled part [0, cursor); the cursor is its length.
  An operation whose precondition fails returns [None]. *)
Module AlignmentBuffer.
Section WithBlockSize.

Variable BLOCK_SIZE : nat.

Definition t := list byte.

(** Resets the cursor to zero. *)
Definition clear (_ : t) : t := [].

Definition elements_in_buffer (b : t) : nat := length b.

(** [block_bytes - cursor]: the bytes still needed to complete the block. *)
Definition elements_until_alignment (b : t) : nat := BLOCK_SIZE - length b.

(** True iff the buffer holds zero bytes. *)
Definition in_alignment (b : t) : bool := length b =? 0.

(** True iff the buffer is exactly full. *)
Definition ready_to_consume (b : t) : bool := length b =? BLOCK_SIZE.

(** Appends bytes without exceeding the capacity. *)
Definition append (b : t) (elements : span) : option t :=
  if length elements <=? elements_until_alignment b
  then Some (b ++ elements) else None.

(** Pads the unfilled remainder of the buffer with zero bytes. *)
Definition fill_up_with_zeros (b : t) : t :=
  b ++ repeat 0%Z (elements_until_alignment b).

(** The view onto the last [n] bytes of the full buffer, as its offset. *)
Definition directly_modify_last (b : t) (n : nat) : option nat :=
  if ready_to_consume b && (n <=? BLOCK_SIZE)
  then Some (BLOCK_SIZE - n) else None.

(** Writing [bytes] through a view that starts at [off]. *)
Definition write_at (b : t) (off : nat) (bytes : span) : t :=
  firstn off b ++ bytes ++ skipn (off + length bytes) b.

(** Returns the full block and resets the buffer to empty. *)
Definition consume (b : t) : option (span * t) :=
  if ready_to_consume b then Some (b, []) else None.

(** If the buffer already holds some bytes, copies as many bytes as needed
    (and available) from the input cursor to fill the buffer to one block
    and advances the cursor; returns the completed block, draining the
    buffer, if filling succeeded, and otherwise signals not yet full. *)
Definition handle_unaligned_data (b : t) (s : BufferSlicer.t)
  : option (option span * t * BufferSlicer.t) :=
  if in_alignment b then Some (None, b, s)
  else
    let n := Nat.min (elements_until_alignment b) (BufferSlicer.remaining s) in
    match BufferSlicer.take s n with
    | None => None
    | Some (bytes, s') =>
        match append b bytes with
        | None => None
        | Some b' =>
            if ready_to_consume b' then
              match consume b' with
              | None => None
              | Some (blk, b'') => Some (Some blk, b'', s')
              end
            else Some (None, b', s')
        end
    end.

(** When in alignment: the largest byte range of the input cursor whose
    length is a multiple of the block size, with the count of whole blocks;
    the cursor moves past that range, and the remainder, shorter than one
    block, is appended into the buffer. *)
Definition aligned_data_to_process (b : t) (s : BufferSlicer.t)
  : option (span * nat * t * BufferSlicer.t) :=
  if in_alignment b then
    let full_blocks := BufferSlicer.remaining s / BLOCK_SIZE in
    match BufferSlicer.take s (full_blocks * BLOCK_SIZE) with
    | None => None
    | Some (data, s') =>
        match BufferSlicer.take s' (BufferSlicer.remaining s') with
        | None => None
        | Some (rest, s'') =>
            match append b rest with
            | None => None
            | Some b' => Some (data, full_blocks, b', s'')
            end
        end
    end
  else None.

End WithBlockSize.
End AlignmentBuffer.

(** ** Machine state and the monad of engine code *)

(** The members of [MerkleDamgard_Hash<MD>]. *)
Record MerkleDamgard_Hash := {
  m_digest : digest_type;
  m_count : Z;
  m_buffer : AlignmentBuffer.t
}.

(** What an operation can see and change: the object itself, the caller's
  output span, and the record of every [(input, blocks)] pair handed to
  [MD::compress_n], oldest first. *)
Record Machine := {
  self : MerkleDamgard_Hash;
  output : span;
  compressed : list (span * nat)
}.

(** The assertions of the code, by place. *)
Inductive failure :=
| Assert_not_ready_to_consume   (* append_padding_bit, line 78 *)
| Assert_room_for_counter       (* append_counter_and_finalize, line 97 *)
| Assert_output_size            (* copy_output, line 114 *)
| Assert_in_helper.             (* a precondition inside a helper class *)

(** An operation returns, throws (the state reached so far stays), or is cut
    off because the bound on loop rounds was reached. *)
Inductive outcome (A : Type) :=
| Returned (a : A)
| Thrown (e : failure)
| Unfinished.

Arguments Returned {A} a.
Arguments Thrown {A} e.
Arguments Unfinished {A}.

Definition M (A : Type) := Machine -> outcome A * Machine.

Definition ret {A} (a : A) : M A := fun w => (Returned a, w).

Definition bind {A B} (p : M A) (f : A -> M B) : M B :=
  fun w =>
    match p w with
    | (Returned a, w') => f a w'
    | (Thrown e, w') => (Thrown e, w')
    | (Unfinished, w') => (Unfinished, w')
    end.

Notation "x <- p ;; q" := (bind p (fun x => q))
  (at level 61, p at next level, right associativity).
Notation "p ;; q" := (bind p (fun _ => q))
  (at level 61, right associativity).

Definition throw {A} (e : failure) : M A := fun w => (Thrown e, w).

Definition unfinished {A} : M A := fun w => (Unfinished, w).

Definition BOTAN_ASSERT_NOMSG (e : failure) (cond : bool) : M unit :=
  if cond then ret tt else throw e.

Definition get_self : M MerkleDamgard_Hash := fun w => (Returned (self w), w).

Definition put_self (s : MerkleDamgard_Hash) : M unit :=
  fun w =>
    (Returned tt,
     {| self := s; output := output w; compressed := compressed w |}).

Definition get_output : M span := fun w => (Returned (output w), w).

Definition put_output (o : span) : M unit :=
  fun w =>
    (Returned tt,
     {| self := self w; output := o; compressed := compressed w |}).

Definition record_call (data : span) (blocks : nat) : M unit :=
  fun w =>
    (Returned tt,
     {| self := self w; output := output w;
        compressed := compressed w ++ [(data, blocks)] |}).

Definition get_buffer : M AlignmentBuffer.t :=
  s <- get_self ;; ret (m_buffer s).

Definition put_buffer (b : AlignmentBuffer.t) : M unit :=
  s <- get_self ;;
  put_self {| m_digest := m_digest s; m_count := m_count s; m_buffer := b |}.

Definition get_digest : M digest_type :=
  s <- get_self ;; ret (m_digest s).

Definition put_digest (d : digest_type) : M unit :=
  s <- get_self ;;
  put_self {| m_digest := d; m_count := m_count s; m_buffer := m_buffer s |}.

Definition get_count : M Z :=
  s <- get_self ;; ret (m_count s).

Definition put_count (c : Z) : M unit :=
  s <- get_self ;;
  put_self {| m_digest := m_digest s; m_count := c; m_buffer := m_buffer s |}.

(** A helper result: [None] is a failed precondition. *)
Definition helper {A} (r : option A) : M A :=
  match r with Some a => ret a | None => throw Assert_in_helper end.

(** ** The engine *)

Section Engine.

Variable MD : md_hash_implementation.

(** [MD::compress_n(m_digest, input, blocks)] *)
Definition MD_compress_n (input : span) (blocks : nat) : M unit :=
  d <- get_digest ;;
  put_digest (compress_n MD d input blocks) ;;
  record_call input blocks.

(** [MD::init(m_digest)] *)
Definition MD_init : M unit := put_digest (init MD).

(** The body of the [while] loop of [update]; it returns the input
    cursor as the body leaves it. *)
Definition update_step (inp : BufferSlicer.t) : M BufferSlicer.t :=
  b <- get_buffer ;;
  r <- helper (AlignmentBuffer.handle_unaligned_data (block_bytes MD) b inp) ;;
  let '(one_block, b1, inp1) := r in
  put_buffer b1 ;;
  match one_block with
  | Some blk => MD_compress_n blk 1
  | None => ret tt
  end ;;
  b2 <- get_buffer ;;
  if AlignmentBuffer.in_alignment b2 then
    r2 <- helper (AlignmentBuffer.aligned_data_to_process (block_bytes MD) b2 inp1) ;;
    let '(aligned_data, full_blocks, b3, inp2) := r2 in
    put_buffer b3 ;;
    (if 0 <? full_blocks then MD_compress_n aligned_data full_blocks
     else ret tt) ;;
    ret inp2
  else ret inp1.

(** [while(!in.empty()) { ... }], with a bound on the number of rounds.
    [update] allows one round per input byte; [update_returns] below shows
    that the bound is never reached. *)
Fixpoint update_loop (rounds : nat) (inp : BufferSlicer.t) : M unit :=
  if BufferSlicer.empty inp then ret tt
  else
    match rounds with
    | O => unfinished
    | S rounds' => inp' <- update_step inp ;; update_loop rounds' inp'
    end.

Definition update (input : span) : M unit :=
  update_loop (length input) input ;;
  c <- get_count ;;
  put_count (wrap64 (c + Z.of_nat (length input))).

Definition clear : M unit :=
  MD_init ;;
  b <- get_buffer ;;
  put_buffer (AlignmentBuffer.clear b) ;;
  put_count 0%Z.

Definition append_padding_bit : M unit :=
  b <- get_buffer ;;
  BOTAN_ASSERT_NOMSG Assert_not_ready_to_consume
    (negb (AlignmentBuffer.ready_to_consume (block_bytes MD) b)) ;;
  match bit_endianness MD with
  | Big =>
      let final_byte := 128%Z in
      b' <- helper (AlignmentBuffer.append (block_bytes MD) b [final_byte]) ;;
      put_buffer b'
  | Little =>
      let final_byte := 1%Z in
      b' <- helper (AlignmentBuffer.append (block_bytes MD) b [final_byte]) ;;
      put_buffer b'
  end.

(** [m_buffer.consume()] and the compression of what it returns. *)
Definition compress_consumed : M unit :=
  b <- get_buffer ;;
  r <- helper (AlignmentBuffer.consume (block_bytes MD) b) ;;
  let '(blk, b') := r in
  put_buffer b' ;;
  MD_compress_n blk 1.

Definition append_counter_and_finalize : M unit :=
  b <- get_buffer ;;
  (if AlignmentBuffer.elements_until_alignment (block_bytes MD) b <? ctr_bytes MD then
     put_buffer (AlignmentBuffer.fill_up_with_zeros (block_bytes MD) b) ;;
     compress_consumed
   else ret tt) ;;
  b <- get_buffer ;;
  BOTAN_ASSERT_NOMSG Assert_room_for_counter
    (ctr_bytes MD <=? AlignmentBuffer.elements_until_alignment (block_bytes MD) b) ;;
  put_buffer (AlignmentBuffer.fill_up_with_zeros (block_bytes MD) b) ;;
  c <- get_count ;;
  let bit_count := wrap64 (c * 8) in
  b <- get_buffer ;;
  last_bytes <- helper (AlignmentBuffer.directly_modify_last (block_bytes MD) b 8) ;;
  match byte_endianness MD with
  | Big => put_buffer (AlignmentBuffer.write_at b last_bytes (store_be 8 bit_count))
  | Little => put_buffer (AlignmentBuffer.write_at b last_bytes (store_le 8 bit_count))
  end ;;
  compress_consumed.

Definition copy_output : M unit :=
  out <- get_output ;;
  BOTAN_ASSERT_NOMSG Assert_output_size (output_bytes MD <=? length out) ;;
  d <- get_digest ;;
  let bytes :=
    match byte_endianness MD with
    | Big => copy_out_vec_be (word_bytes MD) (output_bytes MD) d
    | Little => copy_out_vec_le (word_bytes MD) (output_bytes MD) d
    end in
  put_output (bytes ++ skipn (length bytes) out).

Definition final : M unit :=
  append_padding_bit ;;
  append_counter_and_finalize ;;
  copy_output ;;
  clear.

(** The constructor runs [clear] on members that hold anything. *)
Definition construct (uninitialized : MerkleDamgard_Hash) : MerkleDamgard_Hash :=
  self (snd (clear {| self := uninitialized; output := []; compressed := [] |})).

End Engine.

(** ** Running several operations *)

Section Programs.

Variable MD : md_hash_implementation.

(** One [update] call per chunk, in order. *)
Fixpoint update_each (chunks : list span) : M unit :=
  match chunks with
  | [] => ret tt
  | c :: chunks' => update MD c ;; update_each chunks'
  end.

(** What a caller can do with an instance.  [Final out] passes the span
    [out] to [final]. *)
Inductive operation :=
| Update (input : span)
| Final (out : span)
| Clear.

Definition with_output (out : span) (w : Machine) : Machine :=
  {| self := self w; output := out; compressed := compressed w |}.

(** The machine after one operation, whether it returned or threw. *)
Definition perform (w : Machine) (o : operation) : Machine :=
  match o with
  | Update input => snd (update MD input w)
  | Final out => snd (final MD (with_output out w))
  | Clear => snd (clear MD w)
  end.

Definition perform_all (ops : list operation) (w : Machine) : Machine :=
  fold_left perform ops w.

(** A newly constructed instance, next to an output span and with nothing
    compressed yet. *)
Definition fresh (uninitialized : MerkleDamgard_Hash) (out : span) : Machine :=
  {| self := construct MD uninitialized; output := out; compressed := [] |}.

End Programs.

(** ** What the operations compute, as plain functions

    These are the closed forms the theorems below relate the code to. *)

Section ClosedForms.

Variable MD : md_hash_implementation.

(** A state the engine can be in between calls: the buffer is not full and
    the counter is a 64-bit value. *)
Definition buffer_not_full (w : Machine) : Prop :=
  length (m_buffer (self w)) < block_bytes MD.

Definition well_formed (w : Machine) : Prop :=
  buffer_not_full w /\ is_uint64 (m_count (self w)).

(** A recorded call hands over exactly [blocks] whole blocks, at least one. *)
Definition whole_blocks (c : span * nat) : Prop :=
  length (fst c) = snd c * block_bytes MD /\ 0 < snd c.

Definition compressed_bytes (calls : list (span * nat)) : span :=
  concat (map fst calls).

(** The digest after a list of [compress_n] calls. *)
Definition apply_calls (d : digest_type) (calls : list (span * nat)) : digest_type :=
  fold_left (fun d' c => compress_n MD d' (fst c) (snd c)) calls d.

(** The calls the aligned path of [update] makes on input [x]. *)
Definition bulk_calls (x : span) : list (span * nat) :=
  let k := length x / block_bytes MD in
  if 0 <? k then [(firstn (k * block_bytes MD) x, k)] else [].

Definition bulk_rest (x : span) : span :=
  skipn (length x / block_bytes MD * block_bytes MD) x.

(** The calls one [update] makes, and the buffer it leaves. *)
Definition update_calls (buf x : span) : list (span * nat) :=
  if length buf + length x <? block_bytes MD then []
  else if length buf =? 0 then bulk_calls x
  else
    let n := block_bytes MD - length buf in
    (buf ++ firstn n x, 1) :: bulk_calls (skipn n x).

Definition update_buffer (buf x : span) : span :=
  if length buf + length x <? block_bytes MD then buf ++ x
  else if length buf =? 0 then bulk_rest x
  else bulk_rest (skipn (block_bytes MD - length buf) x).

Definition after_update (x : span) (w : Machine) : Machine :=
  let s := self w in
  let calls := update_calls (m_buffer s) x in
  {| self := {| m_digest := apply_calls (m_digest s) calls;
                m_count := wrap64 (m_count s + Z.of_nat (length x));
                m_buffer := update_buffer (m_buffer s) x |};
     output := output w;
     compressed := compressed w ++ calls |}.

(** The padding marker and the serialized bit count. *)
Definition marker_byte : byte :=
  match bit_endianness MD with Big => 128%Z | Little => 1%Z end.

Definition counter_field (count : Z) : span :=
  match byte_endianness MD with
  | Big => store_be 8 (wrap64 (count * 8))
  | Little => store_le 8 (wrap64 (count * 8))
  end.

Definition read_counter_field (bs : span) : Z :=
  match byte_endianness MD with
  | Big => load_be bs
  | Little => load_le bs
  end.

(** The calls [append_counter_and_finalize] makes when the buffer holds
    [b] and the byte counter is [count]. *)
Definition finalize_calls (b : span) (count : Z) : list (span * nat) :=
  if block_bytes MD - length b <? ctr_bytes MD then
    [ (b ++ repeat 0%Z (block_bytes MD - length b), 1);
      (repeat 0%Z (block_bytes MD - 8) ++ counter_field count, 1) ]
  else
    [ (b ++ repeat 0%Z (block_bytes MD - 8 - length b)
         ++ counter_field count, 1) ].

(** The calls [final] makes from buffer [buf] and byte counter [count]. *)
Definition final_calls (buf : span) (count : Z) : list (span * nat) :=
  finalize_calls (buf ++ [marker_byte]) count.

Definition set_buffer (b : span) (w : Machine) : Machine :=
  {| self := {| m_digest := m_digest (self w); m_count := m_count (self w);
                m_buffer := b |};
     output := output w; compressed := compressed w |}.

(** The machine once the padding of [final] has been compressed. *)
Definition padded (w : Machine) : Machine :=
  let calls := final_calls (m_buffer (self w)) (m_count (self w)) in
  {| self := {| m_digest := apply_calls (m_digest (self w)) calls;
                m_count := m_count (self w);
                m_buffer := [] |};
     output := output w;
     compressed := compressed w ++ calls |}.

Definition serialized_digest (d : digest_type) : span :=
  match byte_endianness MD with
  | Big => copy_out_vec_be (word_bytes MD) (output_bytes MD) d
  | Little => copy_out_vec_le (word_bytes MD) (output_bytes MD) d
  end.

(** The state of an instance right after [clear]. *)
Definition cleared : MerkleDamgard_Hash :=
  {| m_digest := init MD; m_count := 0%Z; m_buffer := [] |}.

(** The machine after a [final] that returned. *)
Definition after_final (w : Machine) : Machine :=
  let bytes := serialized_digest (m_digest (self (padded w))) in
  {| self := cleared;
     output := bytes ++ skipn (length bytes) (output w);
     compressed := compressed (padded w) |}.

(** The padding of a message of [len] bytes, in the spec's words: the
    marker, zero bytes up to the counter field of the last block (one more
    block when fewer than [ctr_bytes] bytes are left after the marker), and
    the 8-byte bit count. *)
Definition padding_zeros (len : nat) : nat :=
  let used := len mod block_bytes MD + 1 in
  if block_bytes MD - used <? ctr_bytes MD
  then (block_bytes MD - used) + (block_bytes MD - 8)
  else block_bytes MD - used - 8.

Definition md_padding (len : nat) : span :=
  [marker_byte] ++ repeat 0%Z (padding_zeros len)
    ++ counter_field (Z.of_nat len).

(** The contract of [compress_n]: compressing [na + nb] blocks is
    compressing the first [na] and then the other [nb]. *)
Definition compresses_blockwise : Prop :=
  forall d a b na nb,
    0 < na -> 0 < nb ->
    length a = na * block_bytes MD -> length b = nb * block_bytes MD ->
    compress_n MD d (a ++ b) (na + nb) =
    compress_n MD (compress_n MD d a na) b nb.

(** The contract of [compress_n] on the digest container: its size stays. *)
Definition keeps_digest_size : Prop :=
  forall d data n, length (compress_n MD d data n) = length d.

(** Block-at-a-time compression of [q] blocks. *)
Fixpoint one_by_one (q : nat) (d : digest_type) (data : span) : digest_type :=
  match q with
  | O => d
  | S q' =>
      one_by_one q'
        (compress_n MD d (firstn (block_bytes MD) data) 1)
        (skipn (block_bytes MD) data)
  end.

(** [w'] is [w] after absorbing the bytes [m]: the calls made in between
    and the buffer left together hold the old buffer followed by [m]. *)
Definition absorbed (w : Machine) (m : span) (w' : Machine) : Prop :=
  exists calls,
    m_digest (self w') = apply_calls (m_digest (self w)) calls /\
    m_count (self w') = wrap64 (m_count (self w) + Z.of_nat (length m)) /\
    output w' = output w /\
    compressed w' = compressed w ++ calls /\
    compressed_bytes calls ++ m_buffer (self w') = m_buffer (self w) ++ m /\
    buffer_not_full w' /\
    Forall whole_blocks calls.

(** Two runs agree on everything but the record of calls. *)
Definition same_result (r1 r2 : outcome unit * Machine) : Prop :=
  fst r1 = fst r2 /\ self (snd r1) = self (snd r2) /\
  output (snd r1) = output (snd r2).

End ClosedForms.

(** ** Two small hash descriptions to run the engine on

    [Toy.MD32] has the layout of MD5-like functions read big-endian (64-byte
    blocks, 8 counter bytes); [Toy.MD64] has the layout of SHA-512-like
    functions read little-endian (128-byte blocks, 16 counter bytes).  Their
    compression functions mix one block at a time into every digest word. *)
Module Toy.

Definition mix (d : digest_type) (blk : span) : digest_type :=
  map (fun w => ((w * 33 + fold_left (fun a b => a * 257 + b) blk 7) mod 2 ^ 32)%Z) d.

Fixpoint blockwise (bs : nat) (d : digest_type) (data : span) (n : nat) : digest_type :=
  match n with
  | O => d
  | S n' => blockwise bs (mix d (firstn bs data)) (skipn bs data) n'
  end.

Definition MD32 : md_hash_implementation := {|
  word_bytes := 4;
  init := [0x67452301; 0xefcdab89; 0x98badcfe; 0x10325476]%Z;
  compress_n := blockwise 64;
  bit_endianness := Big;
  byte_endianness := Big;
  block_bytes := 64;
  output_bytes := 16;
  ctr_bytes := 8;
  md_requires := eq_refl
|}.

Definition MD64 : md_hash_implementation := {|
  word_bytes := 4;
  init := [1; 2; 3; 4; 5; 6; 7; 8]%Z;
  compress_n := blockwise 128;
  bit_endianness := Little;
  byte_endianness := Little;
  block_bytes := 128;
  output_bytes := 32;
  ctr_bytes := 16;
  md_requires := eq_refl
|}.

(** A new instance next to the output span [out]. *)
Definition start (MD : md_hash_implementation) (out : list Z) : Machine :=
  fresh MD {| m_digest := []; m_count := 0%Z; m_buffer := [] |} out.

(** A machine that has absorbed [n] bytes since construction. *)
Definition fed (MD : md_hash_implementation) (n : nat) (out : list Z) : Machine :=
  snd (update MD (map (fun i => Z.of_nat (S i) mod 256)%Z (seq 0 n)) (start MD out)).

(** A message of [n] bytes: 1, 2, 3, ... *)
Definition message (n : nat) : span := map (fun i => Z.of_nat (S i) mod 256)%Z (seq 0 n).

End Toy.

(** * The benchmark timer (src/cli/timer.cpp)

    [Timer] measures events between [start] and [stop].  The clock readings
    [OS::get_system_timestamp_ns()] and [OS::get_cpu_cycle_counter()] reach
    the operations as arguments.  The members are declared in timer.h, which
    is not among the sources: the counters are taken as 64-bit unsigned, the
    type of the values [stop] adds to them. *)

Module Timer.

(** [a < b] on [std::string]: lexicographic on the bytes. *)
Definition string_lt (a b : String.string) : bool :=
  match String.compare a b with Lt => true | _ => false end.

Definition format_timer_name (name provider : String.string) : String.string :=
  if String.eqb provider "" || String.eqb provider "base" then name
  else String.append name (String.append " [" (String.append provider "]")).

Section WithDouble.

(** [double], and the product and the cast [stop] applies to it. *)
Variable double : Type.
Variable u64_times_double : Z -> double -> double.
Variable double_to_size_t : double -> Z.

Record t := {
  m_name : String.string;
  m_doing : String.string;
  m_buf_size : Z;
  m_event_mult : Z;
  m_clock_cycle_ratio : double;
  m_clock_speed : Z;
  m_custom_msg : String.string;
  m_time_used : Z;
  m_timer_start : Z;
  m_event_count : Z;
  m_cpu_cycles_used : Z;
  m_cpu_cycles_start : Z
}.

(** [Timer::stop()]; [now] and [cycles] are what the two clocks return. *)
Definition stop (now cycles : Z) (x : t) : t :=
  if negb (m_timer_start x =? 0)%Z then
    let time_used :=
      if (m_timer_start x <? now)%Z
      then wrap64 (m_time_used x + wrap64 (now - m_timer_start x))
      else m_time_used x in
    let cpu_cycles_used :=
      if negb (m_cpu_cycles_start x =? 0)%Z then
        let cycles_taken := wrap64 (cycles - m_cpu_cycles_start x) in
        if (0 <? cycles_taken)%Z
        then wrap64 (m_cpu_cycles_used x +
                     double_to_size_t
                       (u64_times_double cycles_taken (m_clock_cycle_ratio x)))
        else m_cpu_cycles_used x
      else m_cpu_cycles_used x in
    {| m_name := m_name x; m_doing := m_doing x; m_buf_size := m_buf_size x;
       m_event_mult := m_event_mult x;
       m_clock_cycle_ratio := m_clock_cycle_ratio x;
       m_clock_speed := m_clock_speed x; m_custom_msg := m_custom_msg x;
       m_time_used := time_used;
       m_timer_start := 0;
       m_event_count := wrap64 (m_event_count x + 1);
       m_cpu_cycles_used := cpu_cycles_used;
       m_cpu_cycles_start := m_cpu_cycles_start x |}
  else x.

(** [Timer::start()]: [stop()] with its clock readings, then the two
    readings that are stored. *)
Definition start (stop_now stop_cycles now cycles : Z) (x : t) : t :=
  let y := stop stop_now stop_cycles x in
  {| m_name := m_name y; m_doing := m_doing y; m_buf_size := m_buf_size y;
     m_event_mult := m_event_mult y;
     m_clock_cycle_ratio := m_clock_cycle_ratio y;
     m_clock_speed := m_clock_speed y; m_custom_msg := m_custom_msg y;
     m_time_used := m_time_used y;
     m_timer_start := now;
     m_event_count := m_event_count y;
     m_cpu_cycles_used := m_cpu_cycles_used y;
     m_cpu_cycles_start := cycles |}.

(** [Timer::operator<] *)
Definition less (x other : t) : bool :=
  if negb (String.eqb (m_doing x) (m_doing other))
  then string_lt (m_doing x) (m_doing other)
  else string_lt (m_name x) (m_name other).

(** The clock readings of one measurement. *)
Record readings := {
  at_start : Z;
  cycles_at_start : Z;
  at_stop : Z;
  cycles_at_stop : Z
}.

(** [start()] and then [stop()], with the clocks reading as [r] says. *)
Definition measure (x : t) (r : readings) : t :=
  stop (at_stop r) (cycles_at_stop r)
    (start (at_start r) (cycles_at_start r) (at_start r) (cycles_at_start r) x).

Definition measure_all (rs : list readings) (x : t) : t :=
  fold_left measure rs x.

Definition total_time (rs : list readings) : Z :=
  fold_right (fun r acc => (at_stop r - at_start r + acc)%Z) 0%Z rs.

End WithDouble.

End Timer.

(** * Facts *)

(** ** The helpers *)

Section HelperFacts.

Variable BS : nat.
Lemma handle_unaligned_data_aligned (s : BufferSlicer.t) :
  AlignmentBuffer.handle_unaligned_data BS [] s = Some (None, [], s).
Proof. reflexivity. Qed.

Lemma handle_unaligned_data_short (b : AlignmentBuffer.t) (s : BufferSlicer.t) :
  0 < length b -> length b + length s < BS ->
  AlignmentBuffer.handle_unaligned_data BS b s = Some (None, b ++ s, []).
Proof.
  intros Hb Hs.
  unfold AlignmentBuffer.handle_unaligned_data, AlignmentBuffer.in_alignment,
    AlignmentBuffer.elements_until_alignment, BufferSlicer.take,
    BufferSlicer.remaining, AlignmentBuffer.append,
    AlignmentBuffer.ready_to_consume, AlignmentBuffer.elements_until_alignment.
  destruct (Nat.eqb_spec (length b) 0); [lia|].
  rewrite Nat.min_r by lia.
  rewrite Nat.leb_refl, firstn_all, skipn_all.
  destruct (Nat.leb_spec (length s) (BS - length b)); [|lia].
  rewrite length_app.
  destruct (Nat.eqb_spec (length b + length s) BS); [lia|reflexivity].
Qed.

Lemma handle_unaligned_data_fills (b : AlignmentBuffer.t) (s : BufferSlicer.t) :
  0 < length b -> length b <= BS -> BS <= length b + length s ->
  AlignmentBuffer.handle_unaligned_data BS b s =
  Some (Some (b ++ firstn (BS - length b) s), [], skipn (BS - length b) s).
Proof.
  intros Hb Hle Hs.
  unfold AlignmentBuffer.handle_unaligned_data, AlignmentBuffer.in_alignment,
    AlignmentBuffer.elements_until_alignment, BufferSlicer.take,
    BufferSlicer.remaining, AlignmentBuffer.append, AlignmentBuffer.consume,
    AlignmentBuffer.ready_to_consume, AlignmentBuffer.elements_until_alignment.
  destruct (Nat.eqb_spec (length b) 0); [lia|].
  rewrite Nat.min_l by lia.
  destruct (Nat.leb_spec (BS - length b) (length s)); [|lia].
  rewrite length_firstn, Nat.min_l by lia.
  rewrite Nat.leb_refl, length_app, length_firstn, Nat.min_l by lia.
  destruct (Nat.eqb_spec (length b + (BS - length b)) BS); [reflexivity|lia].
Qed.

Lemma aligned_data_to_process_aligned (s : BufferSlicer.t) :
  0 < BS ->
  AlignmentBuffer.aligned_data_to_process BS [] s =
  Some (firstn (length s / BS * BS) s, length s / BS,
        skipn (length s / BS * BS) s, []).
Proof.
  intros BS_pos.
  unfold AlignmentBuffer.aligned_data_to_process, AlignmentBuffer.in_alignment,
    BufferSlicer.take, BufferSlicer.remaining, AlignmentBuffer.append,
    AlignmentBuffer.elements_until_alignment.
  cbn [length Nat.eqb].
  assert (Hq : length s / BS * BS <= length s).
  { rewrite Nat.mul_comm. apply Nat.Div0.mul_div_le. }
  assert (Hr : length s - length s / BS * BS < BS).
  { pose proof (Nat.div_mod_eq (length s) BS) as E.
    pose proof (Nat.mod_upper_bound (length s) BS) as U. lia. }
  destruct (Nat.leb_spec (length s / BS * BS) (length s)); [|lia].
  rewrite Nat.leb_refl, firstn_all, skipn_all, length_skipn.
  destruct (Nat.leb_spec (length s - length s / BS * BS) (BS - 0)); [|lia].
  reflexivity.
Qed.

Lemma write_at_last (pre bytes : span) :
  length pre + 8 <= BS -> length bytes = 8 ->
  AlignmentBuffer.write_at (pre ++ repeat 0%Z (BS - length pre)) (BS - 8) bytes =
  pre ++ repeat 0%Z (BS - 8 - length pre) ++ bytes.
Proof.
  intros Hpre Hbytes.
  replace (BS - length pre) with ((BS - 8 - length pre) + 8) by lia.
  rewrite repeat_app, app_assoc.
  remember (pre ++ repeat 0%Z (BS - 8 - length pre)) as l1 eqn:El1.
  assert (Hl1 : length l1 = BS - 8).
  { subst l1. rewrite length_app, repeat_length. lia. }
  unfold AlignmentBuffer.write_at.
  rewrite firstn_app, Hl1, Nat.sub_diag, firstn_O, app_nil_r.
  rewrite (firstn_all2 l1) by lia.
  rewrite skipn_all2 by (rewrite length_app, repeat_length; lia).
  rewrite app_nil_r. subst l1. rewrite <- app_assoc. reflexivity.
Qed.

Lemma length_store_le (n : nat) (x : Z) : length (store_le n x) = n.
Proof. unfold store_le. now rewrite length_map, length_seq. Qed.

Lemma length_store_be (n : nat) (x : Z) : length (store_be n x) = n.
Proof. unfold store_be. now rewrite length_rev, length_store_le. Qed.

End HelperFacts.

(** ** The engine, operation by operation *)

Section EngineFacts.

Variable MD : md_hash_implementation.

Lemma md_block_bytes_ge : 64 <= block_bytes MD.
Proof.
  pose proof (md_requires MD) as H.
  repeat (apply andb_prop in H; destruct H as [H ?]).
  now apply Nat.leb_le.
Qed.

Lemma md_output_bytes_ge : 16 <= output_bytes MD.
Proof.
  pose proof (md_requires MD) as H.
  repeat (apply andb_prop in H; destruct H as [H ?]).
  now apply Nat.leb_le.
Qed.

Lemma md_ctr_bytes_ge : 8 <= ctr_bytes MD.
Proof.
  pose proof (md_requires MD) as H.
  repeat (apply andb_prop in H; destruct H as [H ?]).
  now apply Nat.leb_le.
Qed.

Lemma md_ctr_bytes_lt : ctr_bytes MD < block_bytes MD.
Proof.
  pose proof (md_requires MD) as H.
  repeat (apply andb_prop in H; destruct H as [H ?]).
  now apply Nat.ltb_lt.
Qed.

Ltac md_bounds :=
  pose proof md_block_bytes_ge; pose proof md_ctr_bytes_ge;
  pose proof md_ctr_bytes_lt; pose proof md_output_bytes_ge.

(** Unfolding the monad down to functions on machines. *)
Ltac run :=
  cbv [bind ret throw unfinished helper BOTAN_ASSERT_NOMSG
       get_self put_self get_output put_output record_call
       get_buffer put_buffer get_digest put_digest get_count put_count
       MD_compress_n MD_init compress_consumed];
  cbn [self output compressed m_digest m_count m_buffer fst snd].

Lemma update_step_returns (x : span) (w : Machine) :
  x <> [] -> buffer_not_full MD w ->
  update_step MD x w =
  (Returned [],
   {| self := {| m_digest := apply_calls MD (m_digest (self w))
                               (update_calls MD (m_buffer (self w)) x);
                 m_count := m_count (self w);
                 m_buffer := update_buffer MD (m_buffer (self w)) x |};
      output := output w;
      compressed := compressed w ++ update_calls MD (m_buffer (self w)) x |}).
Proof.
  intros Hx Hb. md_bounds.
  destruct w as [[d c buf] out log]. unfold buffer_not_full in Hb. cbn in Hb.
  unfold update_step, update_calls, update_buffer.
  cbn [self m_buffer m_digest m_count output compressed].
  destruct (Nat.ltb_spec (length buf + length x) (block_bytes MD)) as [Hlt|Hge].
  - destruct buf as [|b0 buf].
    + run. rewrite handle_unaligned_data_aligned. run.
      cbn [AlignmentBuffer.in_alignment length Nat.eqb].
      rewrite aligned_data_to_process_aligned by lia. run.
      cbn [length Nat.add] in Hlt.
      rewrite (Nat.div_small _ _ Hlt). cbn.
      rewrite ?app_nil_r. reflexivity.
    + run. rewrite handle_unaligned_data_short by (cbn [length] in *; lia). run.
      unfold AlignmentBuffer.in_alignment. cbn. rewrite ?app_nil_r.
      destruct (length (buf ++ x)); reflexivity.
  - destruct buf as [|b0 buf].
    + run. rewrite handle_unaligned_data_aligned. run.
      cbn [AlignmentBuffer.in_alignment length Nat.eqb].
      rewrite aligned_data_to_process_aligned by lia. run.
      unfold bulk_calls, bulk_rest.
      destruct (0 <? length x / block_bytes MD); cbn; try rewrite app_nil_r; reflexivity.
    + run. rewrite handle_unaligned_data_fills by (cbn [length] in *; lia). run.
      cbn [AlignmentBuffer.in_alignment length Nat.eqb].
      rewrite aligned_data_to_process_aligned by lia. run.
      unfold bulk_calls, bulk_rest.
      destruct (0 <? length (skipn (block_bytes MD - S (length buf)) x) / block_bytes MD);
        cbn; rewrite <- ?app_assoc; reflexivity.
Qed.

Lemma update_loop_done (rounds : nat) (w : Machine) :
  update_loop MD rounds [] w = (Returned tt, w).
Proof. destruct rounds; reflexivity. Qed.

Lemma update_calls_nil (buf : span) :
  length buf < block_bytes MD -> update_calls MD buf [] = [].
Proof.
  intros Hb. unfold update_calls. cbn [length].
  destruct (Nat.ltb_spec (length buf + 0) (block_bytes MD)); [reflexivity|lia].
Qed.

Lemma update_buffer_nil (buf : span) :
  length buf < block_bytes MD -> update_buffer MD buf [] = buf.
Proof.
  intros Hb. unfold update_buffer. cbn [length].
  destruct (Nat.ltb_spec (length buf + 0) (block_bytes MD)); [|lia].
  apply app_nil_r.
Qed.

(** [update] returns, and leaves the machine [after_update] describes. *)
Lemma update_returns (x : span) (w : Machine) :
  buffer_not_full MD w ->
  update MD x w = (Returned tt, after_update MD x w).
Proof.
  intros Hb. unfold update, after_update.
  destruct x as [|x0 x].
  - cbn [length update_loop BufferSlicer.empty]. run.
    rewrite update_calls_nil, update_buffer_nil by exact Hb.
    cbn. rewrite app_nil_r. reflexivity.
  - cbn [length update_loop BufferSlicer.empty].
    unfold bind at 1. unfold bind at 1.
    rewrite update_step_returns by (congruence || exact Hb).
    rewrite update_loop_done. run. reflexivity.
Qed.

Lemma clear_returns (w : Machine) :
  clear MD w =
  (Returned tt,
   {| self := cleared MD; output := output w; compressed := compressed w |}).
Proof. reflexivity. Qed.

Lemma construct_cleared (uninitialized : MerkleDamgard_Hash) :
  construct MD uninitialized = cleared MD.
Proof. reflexivity. Qed.

Lemma append_padding_bit_returns (w : Machine) :
  buffer_not_full MD w ->
  append_padding_bit MD w =
  (Returned tt, set_buffer (m_buffer (self w) ++ [marker_byte MD]) w).
Proof.
  intros Hb. unfold buffer_not_full in Hb.
  unfold append_padding_bit, marker_byte, set_buffer,
    AlignmentBuffer.ready_to_consume, AlignmentBuffer.append,
    AlignmentBuffer.elements_until_alignment.
  run.
  destruct (Nat.eqb_spec (length (m_buffer (self w))) (block_bytes MD)); [lia|].
  cbn [negb length].
  destruct (bit_endianness MD); run;
    (destruct (Nat.leb_spec 1 (block_bytes MD - length (m_buffer (self w)))); [|lia]);
    reflexivity.
Qed.

Lemma length_counter_field (count : Z) : length (counter_field MD count) = 8.
Proof.
  unfold counter_field.
  destruct (byte_endianness MD); [apply length_store_le | apply length_store_be].
Qed.

Lemma length_fill_up_with_zeros (b : AlignmentBuffer.t) :
  length b <= block_bytes MD ->
  length (AlignmentBuffer.fill_up_with_zeros (block_bytes MD) b) = block_bytes MD.
Proof.
  intros Hb. unfold AlignmentBuffer.fill_up_with_zeros,
    AlignmentBuffer.elements_until_alignment.
  rewrite length_app, repeat_length. lia.
Qed.

Lemma append_counter_and_finalize_returns (w : Machine) :
  length (m_buffer (self w)) <= block_bytes MD ->
  append_counter_and_finalize MD w =
  (Returned tt,
   let calls := finalize_calls MD (m_buffer (self w)) (m_count (self w)) in
   {| self := {| m_digest := apply_calls MD (m_digest (self w)) calls;
                 m_count := m_count (self w);
                 m_buffer := [] |};
      output := output w;
      compressed := compressed w ++ calls |}).
Proof.
  intros Hb. md_bounds.
  destruct w as [[d c b] out log].
  cbn [self m_buffer m_digest m_count output compressed] in *.
  unfold append_counter_and_finalize, finalize_calls. run.
  unfold AlignmentBuffer.consume, AlignmentBuffer.directly_modify_last,
    AlignmentBuffer.ready_to_consume.
  unfold AlignmentBuffer.elements_until_alignment at 1.
  destruct (Nat.ltb_spec (block_bytes MD - length b) (ctr_bytes MD)) as [Hlt|Hge].
  - rewrite length_fill_up_with_zeros by exact Hb.
    rewrite Nat.eqb_refl. run.
    unfold AlignmentBuffer.elements_until_alignment at 1.
    cbn [length]. rewrite Nat.sub_0_r.
    destruct (Nat.leb_spec (ctr_bytes MD) (block_bytes MD)); [|lia]. run.
    rewrite length_fill_up_with_zeros by (cbn [length]; lia).
    rewrite Nat.eqb_refl.
    destruct (Nat.leb_spec 8 (block_bytes MD)); [|lia].
    cbn [andb]. run.
    unfold AlignmentBuffer.fill_up_with_zeros at 1 2 3 4,
      AlignmentBuffer.elements_until_alignment.
    change (@nil Z) with (@nil Z ++ []) at 1 2 3 4.
    unfold counter_field.
    destruct (byte_endianness MD); run;
      rewrite !(write_at_last (block_bytes MD) [])
        by (rewrite ?length_store_le, ?length_store_be; cbn [length]; lia);
      rewrite !length_app, !repeat_length, ?length_store_le, ?length_store_be;
      cbn [length app];
      replace (block_bytes MD - 8 - 0 + 8) with (block_bytes MD) by lia;
      rewrite Nat.eqb_refl; cbn [apply_calls fold_left fst snd]; run;
      unfold AlignmentBuffer.fill_up_with_zeros,
        AlignmentBuffer.elements_until_alignment;
      rewrite ?Nat.sub_0_r, <- ?app_assoc; reflexivity.
  - run.
    unfold AlignmentBuffer.elements_until_alignment at 1.
    destruct (Nat.leb_spec (ctr_bytes MD) (block_bytes MD - length b)); [|lia]. run.
    rewrite length_fill_up_with_zeros by exact Hb.
    rewrite Nat.eqb_refl.
    destruct (Nat.leb_spec 8 (block_bytes MD)); [|lia].
    cbn [andb]. run.
    unfold AlignmentBuffer.fill_up_with_zeros,
      AlignmentBuffer.elements_until_alignment.
    unfold counter_field.
    destruct (byte_endianness MD); run;
      rewrite !(write_at_last (block_bytes MD) b)
        by (rewrite ?length_store_le, ?length_store_be; lia);
      rewrite !length_app, !repeat_length, ?length_store_le, ?length_store_be;
      replace (length b + (block_bytes MD - 8 - length b + 8)) with (block_bytes MD) by lia;
      rewrite Nat.eqb_refl; cbn [apply_calls fold_left fst snd];
      reflexivity.
Qed.

Lemma copy_output_throws (w : Machine) :
  length (output w) < output_bytes MD ->
  copy_output MD w = (Thrown Assert_output_size, w).
Proof.
  intros Hs. unfold copy_output. run.
  destruct (Nat.leb_spec (output_bytes MD) (length (output w))); [lia|].
  reflexivity.
Qed.

Lemma copy_output_returns (w : Machine) :
  output_bytes MD <= length (output w) ->
  copy_output MD w =
  (Returned tt,
   let bytes := serialized_digest MD (m_digest (self w)) in
   {| self := self w;
      output := bytes ++ skipn (length bytes) (output w);
      compressed := compressed w |}).
Proof.
  intros Hs. unfold copy_output, serialized_digest. run.
  destruct (Nat.leb_spec (output_bytes MD) (length (output w))); [|lia].
  reflexivity.
Qed.

Lemma padding_steps_return (w : Machine) :
  buffer_not_full MD w ->
  (append_padding_bit MD ;; append_counter_and_finalize MD) w =
  (Returned tt, padded MD w).
Proof.
  intros Hb. unfold bind.
  rewrite append_padding_bit_returns by exact Hb.
  rewrite append_counter_and_finalize_returns.
  - reflexivity.
  - unfold buffer_not_full in Hb. cbn. rewrite length_app. cbn. lia.
Qed.

(** [final] with a large enough output span returns. *)
Lemma final_returns (w : Machine) :
  buffer_not_full MD w -> output_bytes MD <= length (output w) ->
  final MD w = (Returned tt, after_final MD w).
Proof.
  intros Hb Hs. unfold final.
  pose proof (padding_steps_return w Hb) as P. unfold bind in P |- *.
  destruct (append_padding_bit MD w) as [[[]| |] w1]; try discriminate.
  destruct (append_counter_and_finalize MD w1) as [[[]| |] w2]; try discriminate.
  injection P as ->.
  rewrite copy_output_returns by exact Hs.
  rewrite clear_returns. reflexivity.
Qed.

(** [final] with too small an output span throws at the size check, after
    the padding has been compressed. *)
Lemma final_throws (w : Machine) :
  buffer_not_full MD w -> length (output w) < output_bytes MD ->
  final MD w = (Thrown Assert_output_size, padded MD w).
Proof.
  intros Hb Hs. unfold final.
  pose proof (padding_steps_return w Hb) as P. unfold bind in P |- *.
  destruct (append_padding_bit MD w) as [[[]| |] w1]; try discriminate.
  destruct (append_counter_and_finalize MD w1) as [[[]| |] w2]; try discriminate.
  injection P as ->.
  rewrite copy_output_throws by exact Hs. reflexivity.
Qed.

(** ** Conservation of bytes through [update] *)

Lemma bulk_conserves (x : span) :
  compressed_bytes (bulk_calls MD x) ++ bulk_rest MD x = x.
Proof.
  unfold bulk_calls, bulk_rest, compressed_bytes.
  destruct (Nat.ltb_spec 0 (length x / block_bytes MD)) as [Hk|Hk].
  - cbn. rewrite app_nil_r. apply firstn_skipn.
  - replace (length x / block_bytes MD) with 0 by lia. reflexivity.
Qed.

Lemma bulk_rest_short (x : span) : length (bulk_rest MD x) < block_bytes MD.
Proof.
  md_bounds. unfold bulk_rest. rewrite length_skipn.
  pose proof (Nat.div_mod_eq (length x) (block_bytes MD)) as E.
  pose proof (Nat.mod_upper_bound (length x) (block_bytes MD)) as U. lia.
Qed.

Lemma bulk_whole_blocks (x : span) : Forall (whole_blocks MD) (bulk_calls MD x).
Proof.
  unfold bulk_calls.
  destruct (Nat.ltb_spec 0 (length x / block_bytes MD)) as [Hk|Hk]; [|constructor].
  constructor; [|constructor]. split; cbn [fst snd]; [|exact Hk].
  rewrite length_firstn. apply Nat.min_l.
  rewrite Nat.mul_comm. apply Nat.Div0.mul_div_le.
Qed.

Lemma update_conserves (buf x : span) :
  length buf < block_bytes MD ->
  compressed_bytes (update_calls MD buf x) ++ update_buffer MD buf x = buf ++ x.
Proof.
  intros Hb. unfold update_calls, update_buffer.
  destruct (Nat.ltb_spec (length buf + length x) (block_bytes MD)) as [Hlt|Hge].
  - reflexivity.
  - destruct (Nat.eqb_spec (length buf) 0) as [H0|H0].
    + rewrite bulk_conserves. destruct buf; [reflexivity|discriminate].
    + unfold compressed_bytes. cbn [map fst concat].
      rewrite <- !app_assoc. f_equal.
      fold (compressed_bytes (bulk_calls MD (skipn (block_bytes MD - length buf) x))).
      rewrite bulk_conserves. apply firstn_skipn.
Qed.

Lemma update_buffer_short (buf x : span) :
  length buf < block_bytes MD ->
  length (update_buffer MD buf x) < block_bytes MD.
Proof.
  intros Hb. unfold update_buffer.
  destruct (Nat.ltb_spec (length buf + length x) (block_bytes MD)) as [Hlt|Hge].
  - rewrite length_app. exact Hlt.
  - destruct (length buf =? 0); apply bulk_rest_short.
Qed.

Lemma update_whole_blocks (buf x : span) :
  length buf < block_bytes MD ->
  Forall (whole_blocks MD) (update_calls MD buf x).
Proof.
  intros Hb. unfold update_calls.
  destruct (Nat.ltb_spec (length buf + length x) (block_bytes MD)) as [Hlt|Hge].
  - constructor.
  - destruct (Nat.eqb_spec (length buf) 0) as [H0|H0].
    + apply bulk_whole_blocks.
    + constructor; [|apply bulk_whole_blocks].
      split; cbn [fst snd]; [|lia].
      rewrite length_app, length_firstn. lia.
Qed.

Lemma absorbed_update (x : span) (w : Machine) :
  buffer_not_full MD w -> absorbed MD w x (after_update MD x w).
Proof.
  intros Hb. exists (update_calls MD (m_buffer (self w)) x).
  unfold after_update, buffer_not_full. cbn.
  repeat split; try reflexivity.
  - apply update_conserves, Hb.
  - apply update_buffer_short, Hb.
  - apply update_whole_blocks, Hb.
Qed.

Lemma wrap64_idem (x : Z) : is_uint64 x -> wrap64 x = x.
Proof. intros H. apply Z.mod_small, H. Qed.

Lemma wrap64_add_l (x y : Z) : wrap64 (wrap64 x + y) = wrap64 (x + y).
Proof. unfold wrap64. apply Zplus_mod_idemp_l. Qed.

Lemma wrap64_range (x : Z) : is_uint64 (wrap64 x).
Proof. apply Z.mod_pos_bound. reflexivity. Qed.

Lemma absorbed_nothing (w : Machine) :
  well_formed MD w -> absorbed MD w [] w.
Proof.
  intros [Hb Hc]. exists []. cbn [length]. rewrite Z.add_0_r, wrap64_idem by exact Hc.
  rewrite !app_nil_r. repeat split; try reflexivity; [exact Hb | constructor].
Qed.

Lemma absorbed_more (w w1 w2 : Machine) (m1 m2 : span) :
  absorbed MD w m1 w1 -> absorbed MD w1 m2 w2 -> absorbed MD w (m1 ++ m2) w2.
Proof.
  intros (c1 & Hd1 & Hn1 & Ho1 & Hl1 & Hb1 & Hf1 & Hw1)
         (c2 & Hd2 & Hn2 & Ho2 & Hl2 & Hb2 & Hf2 & Hw2).
  exists (c1 ++ c2). repeat split.
  - rewrite Hd2, Hd1. unfold apply_calls. now rewrite fold_left_app.
  - rewrite Hn2, Hn1, wrap64_add_l, length_app, Nat2Z.inj_add. f_equal. lia.
  - congruence.
  - rewrite Hl2, Hl1. now rewrite app_assoc.
  - unfold compressed_bytes in *. rewrite map_app, concat_app, <- app_assoc.
    rewrite Hb2, app_assoc, Hb1. now rewrite app_assoc.
  - exact Hf2.
  - apply Forall_app. split; assumption.
Qed.

Lemma absorbed_well_formed (w w' : Machine) (m : span) :
  absorbed MD w m w' -> well_formed MD w'.
Proof.
  intros (c & _ & Hn & _ & _ & _ & Hf & _). split; [exact Hf|].
  rewrite Hn. apply wrap64_range.
Qed.

(** Any number of [update] calls returns. *)
Lemma update_each_absorbed (chunks : list span) (w : Machine) :
  well_formed MD w ->
  exists w', update_each MD chunks w = (Returned tt, w') /\
             absorbed MD w (concat chunks) w'.
Proof.
  revert w. induction chunks as [|c chunks IH]; intros w Hw.
  - exists w. split; [reflexivity|]. now apply absorbed_nothing.
  - cbn [update_each concat]. unfold bind.
    rewrite update_returns by apply Hw.
    pose proof (absorbed_update c w (proj1 Hw)) as A1.
    destruct (IH (after_update MD c w) (absorbed_well_formed _ _ _ A1))
      as (w' & Hr & A2).
    exists w'. split; [exact Hr|]. eapply absorbed_more; eassumption.
Qed.

Lemma whole_blocks_length (calls : list (list Z * nat)) :
  Forall (whole_blocks MD) calls ->
  length (compressed_bytes calls) = list_sum (map snd calls) * block_bytes MD.
Proof.
  unfold compressed_bytes.
  induction 1 as [|c calls [Hc _] _ IH]; [reflexivity|].
  cbn [map concat]. rewrite length_app, IH, Hc.
  change (list_sum (snd c :: map snd calls))
    with (snd c + list_sum (map snd calls)).
  now rewrite Nat.mul_add_distr_r.
Qed.

Lemma split_unique (a a' b b' : list Z) (q q' : nat) :
  a ++ b = a' ++ b' ->
  length a = q * block_bytes MD -> length a' = q' * block_bytes MD ->
  length b < block_bytes MD -> length b' < block_bytes MD ->
  a = a' /\ b = b'.
Proof.
  intros E Ha Ha' Hb Hb'.
  assert (L : length (a ++ b) = length (a' ++ b')) by now rewrite E.
  rewrite !length_app in L.
  assert (Q : q = q') by nia.
  subst q'.
  assert (La : length a = length a') by lia.
  split.
  - apply (f_equal (firstn (length a))) in E.
    rewrite firstn_app, Nat.sub_diag, firstn_all, firstn_O, app_nil_r in E.
    rewrite La, firstn_app, Nat.sub_diag, firstn_all, firstn_O, app_nil_r in E.
    exact E.
  - apply (f_equal (skipn (length a))) in E.
    rewrite skipn_app, Nat.sub_diag, skipn_all, skipn_O in E.
    rewrite La, skipn_app, Nat.sub_diag, skipn_all, skipn_O in E.
    exact E.
Qed.

(** ** What the contract of [compress_n] gives *)

Section Blockwise.

Hypothesis blockwise : compresses_blockwise MD.

Lemma compress_n_one_by_one (k : nat) (d : list Z) (data : list Z) :
  length data = S k * block_bytes MD ->
  compress_n MD d data (S k) = one_by_one MD (S k) d data.
Proof.
  md_bounds. revert d data. induction k as [|k IH]; intros d data Hlen.
  - cbn [one_by_one]. rewrite firstn_all2 by lia. reflexivity.
  - change (one_by_one MD (S (S k)) d data)
      with (one_by_one MD (S k)
              (compress_n MD d (firstn (block_bytes MD) data) 1)
              (skipn (block_bytes MD) data)).
    rewrite <- IH by (rewrite length_skipn; lia).
    rewrite <- (firstn_skipn (block_bytes MD) data) at 1.
    change (S (S k)) with (1 + S k).
    apply blockwise; try lia.
    + rewrite length_firstn. lia.
    + rewrite length_skipn. lia.
Qed.

End Blockwise.

Lemma one_by_one_app (q1 q2 : nat) (d a b : list Z) :
  length a = q1 * block_bytes MD ->
  one_by_one MD (q1 + q2) d (a ++ b) = one_by_one MD q2 (one_by_one MD q1 d a) b.
Proof.
  md_bounds. revert d a. induction q1 as [|q1 IH]; intros d a Ha.
  - destruct a; [reflexivity|discriminate].
  - cbn [Nat.add one_by_one].
    rewrite firstn_app, skipn_app.
    replace (block_bytes MD - length a) with 0 by lia.
    rewrite firstn_O, skipn_O, app_nil_r.
    apply IH. rewrite length_skipn. lia.
Qed.

Lemma apply_calls_one_by_one (calls : list (list Z * nat)) (d : list Z) :
  compresses_blockwise MD ->
  Forall (whole_blocks MD) calls ->
  apply_calls MD d calls =
  one_by_one MD (list_sum (map snd calls)) d (compressed_bytes calls).
Proof.
  intros Hbw Hw. revert d.
  induction Hw as [|[data n] calls [Hc Hn] _ IH]; intros d; [reflexivity|].
  cbn [fst snd] in Hc, Hn.
  change (apply_calls MD d ((data, n) :: calls))
    with (apply_calls MD (compress_n MD d data n) calls).
  change (list_sum (map snd ((data, n) :: calls)))
    with (n + list_sum (map snd calls)).
  change (compressed_bytes ((data, n) :: calls))
    with (data ++ compressed_bytes calls).
  rewrite one_by_one_app by exact Hc.
  rewrite IH. destruct n as [|n]; [lia|].
  rewrite compress_n_one_by_one by assumption. reflexivity.
Qed.

(** The bytes compressed and the bytes left in the buffer after absorbing
    [m] do not depend on how [m] arrived, whatever [compress_n] does. *)
Lemma absorbed_same_bytes (w w1 w2 : Machine) (m : list Z) :
  absorbed MD w m w1 -> absorbed MD w m w2 ->
  compressed_bytes (compressed w1) = compressed_bytes (compressed w2) /\
  m_buffer (self w1) = m_buffer (self w2) /\
  m_count (self w1) = m_count (self w2).
Proof.
  intros (c1 & Hd1 & Hn1 & Ho1 & Hl1 & Hb1 & Hf1 & Hw1)
         (c2 & Hd2 & Hn2 & Ho2 & Hl2 & Hb2 & Hf2 & Hw2).
  destruct (split_unique (compressed_bytes c1) (compressed_bytes c2)
              (m_buffer (self w1)) (m_buffer (self w2))
              (list_sum (map snd c1)) (list_sum (map snd c2)))
    as [Ebytes Ebuf];
    try (now apply whole_blocks_length); try assumption.
  { now rewrite Hb1, Hb2. }
  refine (conj _ (conj Ebuf _)); [|congruence].
  rewrite Hl1, Hl2. unfold compressed_bytes in *.
  rewrite !map_app, !concat_app. now f_equal.
Qed.

(** With a block-by-block compression function, the state after absorbing
    [m] does not depend on how [m] arrived. *)
Lemma absorbed_unique (w w1 w2 : Machine) (m : list Z) :
  compresses_blockwise MD ->
  absorbed MD w m w1 -> absorbed MD w m w2 ->
  self w1 = self w2 /\ output w1 = output w2.
Proof.
  intros Hbw (c1 & Hd1 & Hn1 & Ho1 & Hl1 & Hb1 & Hf1 & Hw1)
             (c2 & Hd2 & Hn2 & Ho2 & Hl2 & Hb2 & Hf2 & Hw2).
  md_bounds.
  destruct (split_unique (compressed_bytes c1) (compressed_bytes c2)
              (m_buffer (self w1)) (m_buffer (self w2))
              (list_sum (map snd c1)) (list_sum (map snd c2)))
    as [Ebytes Ebuf];
    try (now apply whole_blocks_length); try assumption.
  { now rewrite Hb1, Hb2. }
  assert (Esum : list_sum (map snd c1) = list_sum (map snd c2)).
  { pose proof (whole_blocks_length c1 Hw1) as L1.
    pose proof (whole_blocks_length c2 Hw2) as L2.
    rewrite Ebytes in L1. nia. }
  split; [|congruence].
  destruct (self w1) as [d1 n1 b1], (self w2) as [d2 n2 b2].
  cbn [m_digest m_count m_buffer] in *. f_equal.
  - rewrite Hd1, Hd2, !apply_calls_one_by_one by assumption. congruence.
  - congruence.
  - exact Ebuf.
Qed.

(** ** Results do not depend on the record of calls *)

Lemma final_same (w1 w2 : Machine) :
  buffer_not_full MD w1 -> self w1 = self w2 -> output w1 = output w2 ->
  same_result (final MD w1) (final MD w2).
Proof.
  intros Hb Es Eo.
  assert (Hb2 : buffer_not_full MD w2) by (unfold buffer_not_full in *; now rewrite <- Es).
  destruct (Nat.le_gt_cases (output_bytes MD) (length (output w1))) as [Hs|Hs].
  - rewrite (final_returns w1), (final_returns w2) by (assumption || now rewrite <- Eo).
    unfold same_result, after_final, padded. cbn. rewrite Es, Eo. auto.
  - rewrite (final_throws w1), (final_throws w2) by (assumption || now rewrite <- Eo).
    unfold same_result, padded. cbn. rewrite Es, Eo. auto.
Qed.

Lemma update_same (x : list Z) (w1 w2 : Machine) :
  buffer_not_full MD w1 -> self w1 = self w2 -> output w1 = output w2 ->
  same_result (update MD x w1) (update MD x w2) /\
  buffer_not_full MD (snd (update MD x w1)).
Proof.
  intros Hb Es Eo.
  assert (Hb2 : buffer_not_full MD w2) by (unfold buffer_not_full in *; now rewrite <- Es).
  rewrite (update_returns x w1), (update_returns x w2) by assumption.
  split.
  - unfold same_result, after_update. cbn. rewrite Es, Eo. auto.
  - unfold buffer_not_full, after_update. cbn. apply update_buffer_short, Hb.
Qed.

Lemma update_each_same (chunks : list (list Z)) (w1 w2 : Machine) :
  buffer_not_full MD w1 -> self w1 = self w2 -> output w1 = output w2 ->
  same_result ((update_each MD chunks ;; final MD) w1)
              ((update_each MD chunks ;; final MD) w2).
Proof.
  revert w1 w2. induction chunks as [|c chunks IH]; intros w1 w2 Hb Es Eo.
  - cbn [update_each]. unfold bind, ret. now apply final_same.
  - destruct (update_same c w1 w2 Hb Es Eo) as [(Er & Es' & Eo') Hb'].
    assert (Hb2 : buffer_not_full MD w2) by (unfold buffer_not_full in *; now rewrite <- Es).
    rewrite (update_returns c w1) in * by assumption.
    rewrite (update_returns c w2) in * by assumption.
    cbn [fst snd] in *.
    specialize (IH _ _ Hb' Es' Eo').
    unfold bind in IH |- *. cbn [update_each]. unfold bind.
    rewrite (update_returns c w1), (update_returns c w2) by assumption.
    exact IH.
Qed.

Lemma compressed_after_final (w : Machine) :
  buffer_not_full MD w ->
  compressed (snd (final MD w)) =
  compressed w ++ final_calls MD (m_buffer (self w)) (m_count (self w)).
Proof.
  intros Hb.
  destruct (Nat.le_gt_cases (output_bytes MD) (length (output w))) as [Hs|Hs].
  - rewrite final_returns by assumption. reflexivity.
  - rewrite final_throws by assumption. reflexivity.
Qed.

(** ** Chunk-boundary independence *)

(** C1.  For every byte sequence and every way of cutting it into
    consecutive chunks, one [update] per chunk followed by [final] hands the
    same bytes in the same order to [compress_n] as a single [update] with
    the whole sequence followed by [final]; and, the compression function
    processing its blocks one after the other, both give the same outcome,
    the same output bytes (the digest) and the same engine state, and with
    a large enough output span both return. *)
Theorem chunk_boundary_independence (chunks : list (list Z)) (w : Machine) :
  well_formed MD w ->
  let chunked := (update_each MD chunks ;; final MD) w in
  let whole := (update MD (concat chunks) ;; final MD) w in
  compressed_bytes (compressed (snd chunked)) =
    compressed_bytes (compressed (snd whole)) /\
  (compresses_blockwise MD ->
   same_result chunked whole /\
   (output_bytes MD <= length (output w) ->
    fst chunked = Returned tt /\ fst whole = Returned tt)).
Proof.
  intros Hw chunked whole. subst chunked whole.
  destruct (update_each_absorbed chunks w Hw) as (w1 & R1 & A1).
  pose proof (absorbed_update (concat chunks) w (proj1 Hw)) as A2.
  assert (Hb1 : buffer_not_full MD w1) by apply (absorbed_well_formed _ _ _ A1).
  assert (Hb2 : buffer_not_full MD (after_update MD (concat chunks) w))
    by apply (absorbed_well_formed _ _ _ A2).
  unfold bind. rewrite R1, (update_returns _ w) by apply Hw.
  split.
  - destruct (absorbed_same_bytes _ _ _ _ A1 A2) as (Eb & Ebuf & Ec).
    rewrite !compressed_after_final by assumption.
    unfold compressed_bytes in *. rewrite !map_app, !concat_app.
    rewrite Eb, Ebuf, Ec. reflexivity.
  - intros Hbw.
    destruct (absorbed_unique _ _ _ _ Hbw A1 A2) as [Es Eo].
    split; [now apply final_same|].
    intros Hs.
    assert (Ho1 : output w1 = output w)
      by (destruct A1 as (c & _ & _ & Ho & _); exact Ho).
    rewrite (final_returns w1) by (assumption || now rewrite Ho1).
    rewrite (final_returns (after_update MD (concat chunks) w))
      by assumption.
    now split.
Qed.

(** ** The padding compressed by [final] *)

Lemma counter_field_wrap (x : Z) :
  counter_field MD (wrap64 x) = counter_field MD x.
Proof.
  unfold counter_field, wrap64.
  rewrite Z.mul_mod_idemp_l by discriminate. reflexivity.
Qed.

Lemma final_calls_bytes (buf : list Z) (count : Z) :
  length buf < block_bytes MD ->
  compressed_bytes (final_calls MD buf count) =
  buf ++ [marker_byte MD]
      ++ repeat 0%Z
           (if block_bytes MD - (length buf + 1) <? ctr_bytes MD
            then block_bytes MD - (length buf + 1) + (block_bytes MD - 8)
            else block_bytes MD - (length buf + 1) - 8)
      ++ counter_field MD count.
Proof.
  intros Hb. unfold final_calls, finalize_calls, compressed_bytes.
  rewrite length_app. cbn [length].
  destruct (block_bytes MD - (length buf + 1) <? ctr_bytes MD).
  - cbn [map fst concat]. rewrite app_nil_r, repeat_app, <- !app_assoc. reflexivity.
  - cbn [map fst concat]. rewrite app_nil_r, <- !app_assoc.
    replace (block_bytes MD - 8 - (length buf + 1))
      with (block_bytes MD - (length buf + 1) - 8) by lia.
    reflexivity.
Qed.

Lemma final_calls_whole_blocks (buf : list Z) (count : Z) :
  length buf < block_bytes MD ->
  Forall (whole_blocks MD) (final_calls MD buf count).
Proof.
  intros Hb. md_bounds. unfold final_calls, finalize_calls.
  rewrite length_app. cbn [length].
  destruct (Nat.ltb_spec (block_bytes MD - (length buf + 1)) (ctr_bytes MD));
    repeat constructor; cbn [fst snd];
    rewrite ?length_app, ?repeat_length, ?length_counter_field; cbn [length]; lia.
Qed.

Lemma cleared_well_formed (out : list Z) (log : list (list Z * nat)) :
  well_formed MD {| self := cleared MD; output := out; compressed := log |}.
Proof.
  md_bounds. split.
  - unfold buffer_not_full. cbn. lia.
  - cbn. unfold is_uint64. lia.
Qed.

(** What is in the buffer after absorbing [m] into a cleared engine. *)
Lemma absorbed_from_cleared (out : list Z) (log : list (list Z * nat))
  (m : list Z) (w' : Machine) :
  absorbed MD {| self := cleared MD; output := out; compressed := log |} m w' ->
  exists calls,
    compressed w' = log ++ calls /\
    compressed_bytes calls ++ m_buffer (self w') = m /\
    Forall (whole_blocks MD) calls /\
    length (m_buffer (self w')) = length m mod block_bytes MD /\
    m_count (self w') = wrap64 (Z.of_nat (length m)) /\
    output w' = out.
Proof.
  intros (calls & _ & Hn & Ho & Hl & Hb & Hf & Hw). md_bounds.
  cbn [self compressed output cleared m_buffer m_count app] in *.
  rewrite Z.add_0_l in Hn.
  exists calls. repeat split; try assumption.
  pose proof (whole_blocks_length calls Hw) as L.
  apply (f_equal (@length Z)) in Hb. rewrite length_app, L in Hb.
  unfold buffer_not_full in Hf.
  apply Nat.mod_unique with (q := list_sum (map snd calls)); lia.
Qed.

(** ** Conservation of input *)

(** C2.  After [clear], any sequence of [update] calls and then [final]:
    the byte ranges handed to [compress_n], concatenated in call order,
    are exactly the concatenated [update] inputs followed by the padding;
    every call hands over a whole number of blocks, and so does the total. *)
Theorem compressed_input_conserved (chunks : list (list Z)) (w0 : Machine) :
  exists calls,
    compressed (snd ((clear MD ;; update_each MD chunks ;; final MD) w0)) =
      compressed w0 ++ calls /\
    compressed_bytes calls =
      concat chunks ++ md_padding MD (length (concat chunks)) /\
    Forall (whole_blocks MD) calls /\
    length (compressed_bytes calls) mod block_bytes MD = 0.
Proof.
  md_bounds. unfold bind at 1. rewrite clear_returns.
  pose proof (cleared_well_formed (output w0) (compressed w0)) as Hw1.
  destruct (update_each_absorbed chunks _ Hw1) as (w2 & R2 & A2).
  unfold bind. rewrite R2.
  pose proof (absorbed_well_formed _ _ _ A2) as [Hb2 _].
  destruct (absorbed_from_cleared _ _ _ _ A2)
    as (calls & Hl & Hbytes & Hw & Hlen & Hn & _).
  rewrite compressed_after_final by exact Hb2.
  set (fc := final_calls MD (m_buffer (self w2)) (m_count (self w2))).
  assert (Hfw : Forall (whole_blocks MD) (calls ++ fc)).
  { apply Forall_app. split; [exact Hw|]. now apply final_calls_whole_blocks. }
  exists (calls ++ fc). repeat split.
  - rewrite Hl. now rewrite app_assoc.
  - unfold compressed_bytes. rewrite map_app, concat_app.
    fold (compressed_bytes calls). fold (compressed_bytes fc).
    unfold fc. rewrite final_calls_bytes by exact Hb2.
    rewrite app_assoc, Hbytes. f_equal.
    unfold md_padding, padding_zeros.
    rewrite Hlen, Hn, counter_field_wrap. reflexivity.
  - exact Hfw.
  - rewrite (whole_blocks_length _ Hfw). apply Nat.Div0.mod_mul.
Qed.

(** ** The counter field *)

Lemma get_byte_le_mod (x : Z) (i : nat) :
  get_byte_le x i = ((x / 2 ^ (8 * Z.of_nat i)) mod 256)%Z.
Proof.
  unfold get_byte_le.
  rewrite Z.shiftr_div_pow2 by lia.
  change 255%Z with (Z.ones 8). rewrite Z.land_ones by lia. reflexivity.
Qed.

Lemma load_le_bytes (x : Z) (n s : nat) :
  load_le (map (get_byte_le x) (seq s n)) =
  ((x / 2 ^ (8 * Z.of_nat s)) mod 2 ^ (8 * Z.of_nat n))%Z.
Proof.
  revert s. induction n as [|n IH]; intros s.
  - cbn. now rewrite Z.mod_1_r.
  - cbn [seq map load_le fold_right]. fold (load_le (map (get_byte_le x) (seq (S s) n))).
    rewrite IH, get_byte_le_mod.
    replace (8 * Z.of_nat (S n))%Z with (8 + 8 * Z.of_nat n)%Z by lia.
    replace (8 * Z.of_nat (S s))%Z with (8 * Z.of_nat s + 8)%Z by lia.
    rewrite !Z.pow_add_r by lia.
    rewrite <- Z.div_div by lia.
    change (2 ^ 8)%Z with 256%Z.
    rewrite Z.rem_mul_r by lia. reflexivity.
Qed.

Lemma load_le_store_le (n : nat) (x : Z) :
  load_le (store_le n x) = (x mod 2 ^ (8 * Z.of_nat n))%Z.
Proof.
  unfold store_le. rewrite load_le_bytes.
  now rewrite Z.mul_0_r, Z.pow_0_r, Z.div_1_r.
Qed.

Lemma load_be_store_be (n : nat) (x : Z) :
  load_be (store_be n x) = (x mod 2 ^ (8 * Z.of_nat n))%Z.
Proof.
  unfold load_be, store_be. rewrite rev_involutive. apply load_le_store_le.
Qed.

(** Reading the counter field back gives the bit count modulo [2^64]. *)
Lemma read_counter_field_counter_field (count : Z) :
  read_counter_field MD (counter_field MD count) = ((count * 8) mod 2 ^ 64)%Z.
Proof.
  unfold read_counter_field, counter_field, wrap64.
  destruct (byte_endianness MD);
    rewrite ?load_le_store_le, ?load_be_store_be;
    change (2 ^ (8 * Z.of_nat 8))%Z with (2 ^ 64)%Z;
    apply Z.mod_mod; discriminate.
Qed.

Lemma finalize_calls_last (b : list Z) (count : Z) :
  length b <= block_bytes MD ->
  exists calls pre,
    finalize_calls MD b count =
      calls ++ [(pre ++ repeat 0%Z (ctr_bytes MD - 8) ++ counter_field MD count, 1)] /\
    length pre = block_bytes MD - ctr_bytes MD.
Proof.
  intros Hb. md_bounds. unfold finalize_calls.
  destruct (Nat.ltb_spec (block_bytes MD - length b) (ctr_bytes MD)) as [Hlt|Hge].
  - exists [(b ++ repeat 0%Z (block_bytes MD - length b), 1)],
           (repeat 0%Z (block_bytes MD - ctr_bytes MD)).
    split; [|apply repeat_length].
    cbn [app]. rewrite app_assoc, <- repeat_app.
    replace (block_bytes MD - ctr_bytes MD + (ctr_bytes MD - 8))
      with (block_bytes MD - 8) by lia.
    reflexivity.
  - exists [], (b ++ repeat 0%Z (block_bytes MD - ctr_bytes MD - length b)).
    split; [|rewrite length_app, repeat_length; lia].
    cbn [app]. rewrite <- app_assoc, (app_assoc (repeat _ _)), <- repeat_app.
    replace (block_bytes MD - ctr_bytes MD - length b + (ctr_bytes MD - 8))
      with (block_bytes MD - 8 - length b) by lia.
    reflexivity.
Qed.

(** C3.  After [clear] and [update] calls absorbing [L] bytes in all, the
    last block [final] hands to [compress_n] ends with the 8-byte field
    holding [L * 8] modulo [2^64], big- or little-endian as
    [byte_endianness] says; the field is 8 bytes whatever [ctr_bytes] is
    (the rest of the counter area is zero), and a count that does not fit
    wraps around. *)
Theorem counter_field_in_last_block (chunks : list (list Z)) (w0 : Machine) :
  let L := Z.of_nat (length (concat chunks)) in
  exists calls pre field,
    compressed (snd ((clear MD ;; update_each MD chunks ;; final MD) w0)) =
      compressed w0 ++ calls ++ [(pre ++ repeat 0%Z (ctr_bytes MD - 8) ++ field, 1)] /\
    length pre = block_bytes MD - ctr_bytes MD /\
    length field = 8 /\
    field = match byte_endianness MD with
            | Big => store_be 8 ((L * 8) mod 2 ^ 64)
            | Little => store_le 8 ((L * 8) mod 2 ^ 64)
            end /\
    read_counter_field MD field = ((L * 8) mod 2 ^ 64)%Z.
Proof.
  intros L. md_bounds. unfold bind at 1. rewrite clear_returns.
  pose proof (cleared_well_formed (output w0) (compressed w0)) as Hw1.
  destruct (update_each_absorbed chunks _ Hw1) as (w2 & R2 & A2).
  unfold bind. rewrite R2.
  pose proof (absorbed_well_formed _ _ _ A2) as [Hb2 _].
  destruct (absorbed_from_cleared _ _ _ _ A2)
    as (calls & Hl & _ & _ & _ & Hn & _).
  rewrite compressed_after_final by exact Hb2.
  unfold final_calls.
  destruct (finalize_calls_last (m_buffer (self w2) ++ [marker_byte MD]) (m_count (self w2)))
    as (fc & pre & Hfc & Hpre).
  { unfold buffer_not_full in Hb2. rewrite length_app. cbn [length]. lia. }
  rewrite Hfc, Hn, counter_field_wrap. fold L.
  exists (calls ++ fc), pre, (counter_field MD L).
  refine (conj _ (conj _ (conj _ (conj _ _)))).
  - rewrite Hl, <- !app_assoc. reflexivity.
  - exact Hpre.
  - apply length_counter_field.
  - unfold counter_field, wrap64. destruct (byte_endianness MD); reflexivity.
  - apply read_counter_field_counter_field.
Qed.

(** ** The two phases of the padding *)

(** C4.  In [final], once the marker byte is in the buffer: when fewer than
    [ctr_bytes] bytes are left in the block, the block is filled with zeros
    and compressed as it is (buffered bytes, marker, zeros, no length
    field), and the length field goes at the end of a further block of
    zeros, so two blocks are compressed; otherwise one block is compressed,
    holding the buffered bytes, the marker, zeros and the length field. *)
Theorem two_phase_padding (w : Machine) :
  buffer_not_full MD w ->
  let buf := m_buffer (self w) in
  let left := block_bytes MD - (length buf + 1) in
  let field := counter_field MD (m_count (self w)) in
  compressed (snd (final MD w)) =
  compressed w ++
    (if left <? ctr_bytes MD then
       [ (buf ++ [marker_byte MD] ++ repeat 0%Z left, 1);
         (repeat 0%Z (block_bytes MD - 8) ++ field, 1) ]
     else
       [ (buf ++ [marker_byte MD] ++ repeat 0%Z (left - 8) ++ field, 1) ]).
Proof.
  intros Hb buf left field.
  rewrite compressed_after_final by exact Hb. f_equal.
  unfold final_calls, finalize_calls. fold buf. fold field.
  rewrite length_app. cbn [length]. fold left.
  destruct (left <? ctr_bytes MD).
  - rewrite <- app_assoc. reflexivity.
  - rewrite <- !app_assoc.
    replace (block_bytes MD - 8 - (length buf + 1)) with (left - 8)
      by (unfold left; lia).
    reflexivity.
Qed.

(** ** The marker byte *)

(** C5.  [final] starts by appending one byte to the buffered data: [0x80]
    when [bit_endianness] is [Big], [0x01] when it is [Little]; the rest of
    [final] runs on the buffer so extended. *)
Theorem padding_marker_byte (w : Machine) :
  buffer_not_full MD w ->
  let marker := match bit_endianness MD with Big => 128%Z | Little => 1%Z end in
  append_padding_bit MD w =
    (Returned tt, set_buffer (m_buffer (self w) ++ [marker]) w) /\
  final MD w =
    (append_counter_and_finalize MD ;; copy_output MD ;; clear MD)
      (set_buffer (m_buffer (self w) ++ [marker]) w).
Proof.
  intros Hb marker.
  pose proof (append_padding_bit_returns w Hb) as P.
  split; [exact P|].
  unfold final. unfold bind at 1. rewrite P. reflexivity.
Qed.

(** ** Reuse and [clear] *)

Lemma final_returned_cleared (w w' : Machine) :
  final MD w = (Returned tt, w') -> self w' = cleared MD.
Proof.
  unfold final, bind.
  destruct (append_padding_bit MD w) as [[[]| |] w1]; try discriminate.
  destruct (append_counter_and_finalize MD w1) as [[[]| |] w2]; try discriminate.
  destruct (copy_output MD w2) as [[[]| |] w3]; try discriminate.
  rewrite clear_returns. intros E. injection E as <-. reflexivity.
Qed.

(** C6.  When [final] has returned, the digest state, the buffer and the
    byte counter are those of a newly constructed instance, and any
    [update] calls followed by [final] give on this instance what they give
    on a new one. *)
Theorem reuse_after_final (w w' : Machine) (uninitialized : MerkleDamgard_Hash) :
  final MD w = (Returned tt, w') ->
  self w' = construct MD uninitialized /\
  forall chunks,
    same_result ((update_each MD chunks ;; final MD) w')
                ((update_each MD chunks ;; final MD)
                   (fresh MD uninitialized (output w'))).
Proof.
  intros Hf. apply final_returned_cleared in Hf.
  rewrite construct_cleared. split; [exact Hf|].
  intros chunks. md_bounds. apply update_each_same.
  - unfold buffer_not_full. rewrite Hf. cbn. lia.
  - exact Hf.
  - reflexivity.
Qed.

(** C7.  [clear] always returns; it sets the digest state to the initial
    value of the algorithm, empties the buffer and zeroes the byte counter,
    which is the state of a new instance; hashing a message after [clear],
    whatever was absorbed before, gives what a new instance gives. *)
Theorem clear_semantics (w : Machine) (uninitialized : MerkleDamgard_Hash)
  (chunks : list (list Z)) :
  clear MD w =
    (Returned tt,
     {| self := {| m_digest := init MD; m_count := 0%Z; m_buffer := [] |};
        output := output w; compressed := compressed w |}) /\
  self (snd (clear MD w)) = construct MD uninitialized /\
  same_result ((clear MD ;; update_each MD chunks ;; final MD) w)
              ((update_each MD chunks ;; final MD)
                 (fresh MD uninitialized (output w))).
Proof.
  split; [reflexivity|]. split; [reflexivity|].
  unfold bind at 1. rewrite clear_returns.
  apply update_each_same; try reflexivity.
  apply cleared_well_formed.
Qed.

(** ** The output span *)

Lemma length_serialized_words (wb : nat) (d : list Z) :
  length (flat_map (store_le wb) d) = wb * length d /\
  length (flat_map (store_be wb) d) = wb * length d.
Proof.
  induction d as [|x d [IHl IHb]]; cbn [flat_map length].
  - split; lia.
  - rewrite !length_app, IHl, IHb, length_store_le, length_store_be. split; lia.
Qed.

Lemma length_serialized_digest (d : list Z) :
  output_bytes MD <= word_bytes MD * length d ->
  length (serialized_digest MD d) = output_bytes MD.
Proof.
  intros Hd. destruct (length_serialized_words (word_bytes MD) d) as [Ll Lb].
  unfold serialized_digest, copy_out_vec_be, copy_out_vec_le.
  destruct (byte_endianness MD); rewrite length_firstn; lia.
Qed.

Lemma length_apply_calls (d : list Z) (calls : list (list Z * nat)) :
  keeps_digest_size MD -> length (apply_calls MD d calls) = length d.
Proof.
  intros Hk. revert d. induction calls as [|c calls IH]; intros d; [reflexivity|].
  cbn [apply_calls fold_left]. fold (apply_calls MD (compress_n MD d (fst c) (snd c)) calls).
  rewrite IH. apply Hk.
Qed.

(** C8.  [final] needs an output span of at least [output_bytes] bytes.
    With a shorter span it fails at the size check and the span is as it
    was, no byte of it written.  With a span that is long enough it
    returns, and exactly the first [output_bytes] bytes of the span are
    replaced by the digest words serialized as [byte_endianness] says (the
    digest container being large enough for [output_bytes] and kept at its
    size by [compress_n]). *)
Theorem output_buffer_contract (w : Machine) :
  buffer_not_full MD w ->
  (length (output w) < output_bytes MD ->
   fst (final MD w) = Thrown Assert_output_size /\
   output (snd (final MD w)) = output w) /\
  (output_bytes MD <= length (output w) ->
   keeps_digest_size MD ->
   output_bytes MD <= word_bytes MD * length (m_digest (self w)) ->
   exists digest_bytes,
     fst (final MD w) = Returned tt /\
     output (snd (final MD w)) =
       digest_bytes ++ skipn (output_bytes MD) (output w) /\
     length digest_bytes = output_bytes MD /\
     digest_bytes =
       firstn (output_bytes MD)
         (flat_map
            (match byte_endianness MD with
             | Big => store_be (word_bytes MD)
             | Little => store_le (word_bytes MD)
             end)
            (m_digest (self (padded MD w))))).
Proof.
  intros Hb. split.
  - intros Hs. rewrite final_throws by assumption. split; reflexivity.
  - intros Hs Hk Hd. rewrite final_returns by assumption.
    exists (serialized_digest MD (m_digest (self (padded MD w)))).
    assert (Hlen : length (serialized_digest MD (m_digest (self (padded MD w))))
                   = output_bytes MD).
    { apply length_serialized_digest. unfold padded. cbn [self m_digest].
      rewrite length_apply_calls by exact Hk. exact Hd. }
    refine (conj eq_refl (conj _ (conj Hlen _))).
    + unfold after_final. cbn [snd output]. rewrite Hlen. reflexivity.
    + unfold serialized_digest, copy_out_vec_be, copy_out_vec_le.
      destruct (byte_endianness MD); reflexivity.
Qed.

(** ** The buffer is never full between calls *)

Lemma perform_keeps_buffer_not_full (w : Machine) (o : operation) :
  buffer_not_full MD w -> buffer_not_full MD (perform MD w o).
Proof.
  intros Hb. md_bounds. destruct o as [input|out|]; cbn [perform].
  - rewrite update_returns by exact Hb.
    unfold buffer_not_full, after_update. cbn. apply update_buffer_short, Hb.
  - assert (Hb' : buffer_not_full MD (with_output out w)) by exact Hb.
    destruct (Nat.le_gt_cases (output_bytes MD) (length (output (with_output out w)))).
    + rewrite final_returns by assumption. unfold buffer_not_full. cbn. lia.
    + rewrite final_throws by assumption. unfold buffer_not_full. cbn. lia.
  - unfold buffer_not_full. cbn. lia.
Qed.

Lemma perform_all_keeps_buffer_not_full (ops : list operation) (w : Machine) :
  buffer_not_full MD w -> buffer_not_full MD (perform_all MD ops w).
Proof.
  revert w. induction ops as [|o ops IH]; intros w Hb; [exact Hb|].
  cbn [perform_all fold_left]. apply IH, perform_keeps_buffer_not_full, Hb.
Qed.

(** C9.  Whatever operations ([update], [final], [clear], in any order and
    number, a [final] that failed on its output span included) have been
    applied to a newly constructed instance, the buffer holds fewer than
    [block_bytes] bytes; so at the start of a [final] the check that the
    buffer is not ready to consume passes and the marker byte is appended. *)
Theorem buffer_not_full_at_final (ops : list operation)
  (uninitialized : MerkleDamgard_Hash) (out0 out : list Z) :
  let w := perform_all MD ops (fresh MD uninitialized out0) in
  length (m_buffer (self w)) < block_bytes MD /\
  AlignmentBuffer.ready_to_consume (block_bytes MD) (m_buffer (self w)) = false /\
  fst (append_padding_bit MD (with_output out w)) = Returned tt /\
  fst (final MD (with_output out w)) <> Thrown Assert_not_ready_to_consume.
Proof.
  intros w. md_bounds.
  assert (Hb : buffer_not_full MD w).
  { apply perform_all_keeps_buffer_not_full. unfold buffer_not_full. cbn. lia. }
  assert (Hb' : buffer_not_full MD (with_output out w)) by exact Hb.
  refine (conj Hb (conj _ (conj _ _))).
  - unfold AlignmentBuffer.ready_to_consume. apply Nat.eqb_neq.
    unfold buffer_not_full in Hb. lia.
  - rewrite append_padding_bit_returns by exact Hb'. reflexivity.
  - destruct (Nat.le_gt_cases (output_bytes MD) (length (output (with_output out w)))).
    + rewrite final_returns by assumption. discriminate.
    + rewrite final_throws by assumption. discriminate.
Qed.

(** ** Empty input *)

(** C10.  [update] with an empty input returns and leaves the whole machine
    as it was: digest state, buffer, byte counter, and the record of
    [compress_n] calls, to which nothing is added. *)
Theorem update_empty_is_noop (w : Machine) :
  is_uint64 (m_count (self w)) ->
  update MD [] w = (Returned tt, w).
Proof.
  intros Hc. unfold update. cbn [length update_loop BufferSlicer.empty]. run.
  rewrite Z.add_0_r, wrap64_idem by exact Hc.
  destruct w as [[d c b] out log]. reflexivity.
Qed.

End EngineFacts.

(** * The engine run on the small hash descriptions *)

Lemma toy_blockwise_app (bs na nb : nat) (d a b : list Z) :
  length a = na * bs ->
  Toy.blockwise bs d (a ++ b) (na + nb) =
  Toy.blockwise bs (Toy.blockwise bs d a na) b nb.
Proof.
  revert d a. induction na as [|na IH]; intros d a Ha.
  - destruct a; [reflexivity|discriminate].
  - cbn [Nat.add Toy.blockwise].
    rewrite firstn_app, skipn_app.
    replace (bs - length a) with 0 by lia.
    rewrite firstn_O, skipn_O, app_nil_r.
    apply IH. rewrite length_skipn. lia.
Qed.

Lemma toy_blockwise_length (bs n : nat) (d data : list Z) :
  length (Toy.blockwise bs d data n) = length d.
Proof.
  revert d data. induction n as [|n IH]; intros d data; [reflexivity|].
  cbn [Toy.blockwise]. rewrite IH. unfold Toy.mix. apply length_map.
Qed.

Lemma toy_MD32_blockwise : compresses_blockwise Toy.MD32.
Proof. intros d a b na nb _ _ Ha _. now apply toy_blockwise_app. Qed.

Lemma toy_MD64_blockwise : compresses_blockwise Toy.MD64.
Proof. intros d a b na nb _ _ Ha _. now apply toy_blockwise_app. Qed.

Lemma toy_MD32_keeps_digest_size : keeps_digest_size Toy.MD32.
Proof. intros d data n. apply toy_blockwise_length. Qed.

Lemma toy_MD64_keeps_digest_size : keeps_digest_size Toy.MD64.
Proof. intros d data n. apply toy_blockwise_length. Qed.

(** A 130-byte message cut into chunks of 60, 0, 67 and 3 bytes hashes as
    it does in one piece. *)
Lemma chunk_boundary_independence_witness :
  let chunks := [Toy.message 60; []; Toy.message 67; Toy.message 3] in
  let w := Toy.start Toy.MD32 (repeat 0%Z 16) in
  compresses_blockwise Toy.MD32 /\ well_formed Toy.MD32 w /\
  same_result ((update_each Toy.MD32 chunks ;; final Toy.MD32) w)
              ((update Toy.MD32 (concat chunks) ;; final Toy.MD32) w).
Proof.
  intros chunks w.
  assert (Hw : well_formed Toy.MD32 w).
  { split; [unfold buffer_not_full; cbn; lia | cbn; unfold is_uint64; lia]. }
  split; [exact toy_MD32_blockwise|]. split; [exact Hw|].
  exact (proj1 (proj2 (chunk_boundary_independence Toy.MD32 chunks w Hw)
                 toy_MD32_blockwise)).
Defined.

(** 60 buffered bytes of a 64-byte block leave 3 bytes after the marker:
    two blocks are compressed, the length field in the second. *)
Lemma two_phase_padding_witness :
  let w := Toy.fed Toy.MD32 60 (repeat 0%Z 16) in
  buffer_not_full Toy.MD32 w /\
  compressed (snd (final Toy.MD32 w)) =
  [ (Toy.message 60 ++ [128%Z] ++ repeat 0%Z 3, 1);
    (repeat 0%Z 56 ++ [0; 0; 0; 0; 0; 0; 1; 224]%Z, 1) ].
Proof.
  intros w.
  assert (Hb : buffer_not_full Toy.MD32 w) by (vm_compute; lia).
  split; [exact Hb|].
  rewrite (two_phase_padding Toy.MD32 w Hb). vm_compute. reflexivity.
Defined.

(** With little-endian bits the marker is [0x01]. *)
Lemma padding_marker_byte_witness :
  let w := Toy.fed Toy.MD64 5 (repeat 0%Z 32) in
  buffer_not_full Toy.MD64 w /\
  m_buffer (self (snd (append_padding_bit Toy.MD64 w))) = [1; 2; 3; 4; 5; 1]%Z.
Proof.
  intros w.
  assert (Hb : buffer_not_full Toy.MD64 w) by (vm_compute; lia).
  split; [exact Hb|].
  rewrite (proj1 (padding_marker_byte Toy.MD64 w Hb)). vm_compute. reflexivity.
Defined.

(** After hashing 70 bytes the instance is as new. *)
Lemma reuse_after_final_witness :
  let w := Toy.fed Toy.MD32 70 (repeat 0%Z 20) in
  let w' := snd (final Toy.MD32 w) in
  let u := {| m_digest := [5%Z]; m_count := 9%Z; m_buffer := [7%Z] |} in
  final Toy.MD32 w = (Returned tt, w') /\
  self w' = construct Toy.MD32 u /\
  same_result ((update_each Toy.MD32 [Toy.message 3] ;; final Toy.MD32) w')
              ((update_each Toy.MD32 [Toy.message 3] ;; final Toy.MD32)
                 (fresh Toy.MD32 u (output w'))).
Proof.
  intros w w' u.
  assert (Hf : final Toy.MD32 w = (Returned tt, w')) by (vm_compute; reflexivity).
  split; [exact Hf|].
  destruct (reuse_after_final Toy.MD32 w w' u Hf) as [Hs Hall].
  split; [exact Hs | exact (Hall [Toy.message 3])].
Defined.

(** A 10-byte span is refused untouched; of a 20-byte span the first 16
    bytes receive the digest. *)
Lemma output_buffer_contract_witness :
  let short := Toy.fed Toy.MD32 3 (repeat 9%Z 10) in
  let long := Toy.fed Toy.MD32 3 (repeat 9%Z 20) in
  (buffer_not_full Toy.MD32 short /\
   length (output short) < output_bytes Toy.MD32 /\
   fst (final Toy.MD32 short) = Thrown Assert_output_size /\
   output (snd (final Toy.MD32 short)) = repeat 9%Z 10) /\
  (buffer_not_full Toy.MD32 long /\
   output_bytes Toy.MD32 <= length (output long) /\
   fst (final Toy.MD32 long) = Returned tt /\
   skipn 16 (output (snd (final Toy.MD32 long))) = repeat 9%Z 4 /\
   length (output (snd (final Toy.MD32 long))) = 20).
Proof.
  intros short long.
  assert (Hbs : buffer_not_full Toy.MD32 short) by (vm_compute; lia).
  assert (Hbl : buffer_not_full Toy.MD32 long) by (vm_compute; lia).
  assert (Hs : length (output short) < output_bytes Toy.MD32) by (vm_compute; lia).
  assert (Hl : output_bytes Toy.MD32 <= length (output long)) by (vm_compute; lia).
  split.
  - destruct (proj1 (output_buffer_contract Toy.MD32 short Hbs) Hs) as [Ht Ho].
    refine (conj Hbs (conj Hs (conj Ht _))). rewrite Ho. reflexivity.
  - destruct (proj2 (output_buffer_contract Toy.MD32 long Hbl) Hl
                toy_MD32_keeps_digest_size)
      as (bytes & Hr & Ho & Hlen & _).
    { vm_compute. lia. }
    refine (conj Hbl (conj Hl (conj Hr _))). rewrite Ho. split.
    + change (output_bytes Toy.MD32) with 16 in Hlen |- *.
      rewrite skipn_app, Hlen, skipn_all2 by lia. reflexivity.
    + rewrite length_app, Hlen, length_skipn. reflexivity.
Defined.

(** An empty [update] in the middle of a message changes nothing. *)
Lemma update_empty_is_noop_witness :
  let w := Toy.fed Toy.MD32 5 (repeat 0%Z 16) in
  is_uint64 (m_count (self w)) /\
  update Toy.MD32 [] w = (Returned tt, w).
Proof.
  intros w.
  assert (Hc : is_uint64 (m_count (self w))) by (vm_compute; split; [discriminate | reflexivity]).
  split; [exact Hc|].
  exact (update_empty_is_noop Toy.MD32 w Hc).
Defined.

(** ** Runs *)

(** The empty message: one block, the marker and 63 zero bytes. *)
Example empty_message_padding :
  compressed (snd (final Toy.MD32 (Toy.start Toy.MD32 (repeat 0%Z 16)))) =
  [([128%Z] ++ repeat 0%Z 63, 1)].
Proof. vm_compute. reflexivity. Qed.

(** 120 bytes in 128-byte blocks with 16 counter bytes: 7 bytes are left
    after the marker, so a second block carries the bit count 960, least
    significant byte first. *)
Example little_endian_counter :
  map (fun c => skipn 120 (fst c))
      (compressed (snd (final Toy.MD64 (Toy.fed Toy.MD64 120 [])))) =
  [ [1; 0; 0; 0; 0; 0; 0; 0]%Z; [192; 3; 0; 0; 0; 0; 0; 0]%Z ].
Proof. vm_compute. reflexivity. Qed.

(** The same 130 bytes reach [compress_n] as one call of two blocks or as
    two calls of one block, depending on the chunks. *)
Example call_grouping :
  map snd (compressed (snd (update Toy.MD32 (Toy.message 130)
                              (Toy.start Toy.MD32 [])))) = [2] /\
  map snd (compressed (snd (update_each Toy.MD32
                              [firstn 60 (Toy.message 130);
                               skipn 60 (Toy.message 130)]
                              (Toy.start Toy.MD32 [])))) = [1; 1].
Proof. split; vm_compute; reflexivity. Qed.

(** A byte count of [2^61 + 1] gives the bit count 8: the product wraps. *)
Example counter_wraps :
  compressed
    (snd (final Toy.MD32
            {| self := {| m_digest := init Toy.MD32;
                          m_count := (2 ^ 61 + 1)%Z;
                          m_buffer := [7%Z] |};
               output := repeat 0%Z 16;
               compressed := [] |})) =
  [([7; 128]%Z ++ repeat 0%Z 54 ++ [0; 0; 0; 0; 0; 0; 0; 8]%Z, 1)].
Proof. vm_compute. reflexivity. Qed.

(** * Further properties of the engine *)

Section EngineMore.

Variable MD : md_hash_implementation.

Ltac md_bounds :=
  pose proof (md_block_bytes_ge MD); pose proof (md_ctr_bytes_ge MD);
  pose proof (md_ctr_bytes_lt MD); pose proof (md_output_bytes_ge MD).

(** ** One [update] call *)

(** From a buffer that is not full, [update] returns (no assertion fails,
    the loop ends), does not touch the output span, adds the input length to
    the byte counter modulo [2^64], and leaves a buffer that is not full. *)
Theorem update_returns_and_counts (x : list Z) (w : Machine) :
  buffer_not_full MD w ->
  fst (update MD x w) = Returned tt /\
  output (snd (update MD x w)) = output w /\
  m_count (self (snd (update MD x w))) =
    ((m_count (self w) + Z.of_nat (length x)) mod 2 ^ 64)%Z /\
  length (m_buffer (self (snd (update MD x w)))) < block_bytes MD.
Proof.
  intros Hb. rewrite update_returns by exact Hb.
  refine (conj eq_refl (conj eq_refl (conj eq_refl _))).
  unfold after_update. cbn. apply update_buffer_short, Hb.
Qed.

(** One [update] with [length x] bytes on top of [n] buffered ones
    compresses [(n + length x) / block_bytes] blocks and keeps
    [(n + length x) mod block_bytes] bytes; the bytes compressed followed by
    the bytes kept are the old buffer followed by the input. *)
Theorem update_block_accounting (x : list Z) (w : Machine) :
  buffer_not_full MD w ->
  let total := length (m_buffer (self w)) + length x in
  exists calls,
    compressed (snd (update MD x w)) = compressed w ++ calls /\
    list_sum (map snd calls) = total / block_bytes MD /\
    length (m_buffer (self (snd (update MD x w)))) = total mod block_bytes MD /\
    compressed_bytes calls ++ m_buffer (self (snd (update MD x w))) =
      m_buffer (self w) ++ x.
Proof.
  intros Hb total. md_bounds. rewrite update_returns by exact Hb.
  destruct (absorbed_update MD x w Hb) as (calls & _ & _ & _ & Hl & Hbytes & Hf & Hw).
  cbn [snd].
  pose proof (whole_blocks_length MD calls Hw) as L.
  assert (E : list_sum (map snd calls) * block_bytes MD
              + length (m_buffer (self (after_update MD x w))) = total).
  { apply (f_equal (@length Z)) in Hbytes. rewrite !length_app, L in Hbytes. exact Hbytes. }
  unfold buffer_not_full in Hf.
  exists calls. refine (conj Hl (conj _ (conj _ Hbytes))).
  - apply Nat.div_unique with (r := length (m_buffer (self (after_update MD x w)))); lia.
  - apply Nat.mod_unique with (q := list_sum (map snd calls)); lia.
Qed.

(** When the buffered bytes and the input together do not fill a block,
    [update] only buffers: nothing is compressed, the digest state is as it
    was, and the input is appended to the buffer. *)
Theorem update_short_input_only_buffers (x : list Z) (w : Machine) :
  length (m_buffer (self w)) + length x < block_bytes MD ->
  compressed (snd (update MD x w)) = compressed w /\
  m_digest (self (snd (update MD x w))) = m_digest (self w) /\
  m_buffer (self (snd (update MD x w))) = m_buffer (self w) ++ x.
Proof.
  intros Hlt.
  assert (Hb : buffer_not_full MD w) by (unfold buffer_not_full; lia).
  rewrite update_returns by exact Hb.
  unfold after_update, update_calls, update_buffer. cbn [snd self compressed m_digest m_buffer].
  destruct (Nat.ltb_spec (length (m_buffer (self w)) + length x) (block_bytes MD)); [|lia].
  rewrite app_nil_r. repeat split.
Qed.

(** With an empty buffer and at least one block of input, [update] hands
    all whole blocks of the input to [compress_n] in a single call, straight
    from the input, and buffers the rest. *)
Theorem update_aligned_input_one_call (x : list Z) (w : Machine) :
  m_buffer (self w) = [] -> block_bytes MD <= length x ->
  let k := length x / block_bytes MD in
  compressed (snd (update MD x w)) =
    compressed w ++ [(firstn (k * block_bytes MD) x, k)] /\
  m_digest (self (snd (update MD x w))) =
    compress_n MD (m_digest (self w)) (firstn (k * block_bytes MD) x) k /\
  m_buffer (self (snd (update MD x w))) = skipn (k * block_bytes MD) x.
Proof.
  intros He Hx k. md_bounds.
  assert (Hb : buffer_not_full MD w) by (unfold buffer_not_full; rewrite He; cbn; lia).
  rewrite update_returns by exact Hb.
  unfold after_update, update_calls, update_buffer, bulk_calls, bulk_rest.
  cbn [snd self compressed m_digest m_buffer]. rewrite He. cbn [length Nat.add Nat.eqb].
  destruct (Nat.ltb_spec (length x) (block_bytes MD)); [lia|].
  fold k.
  assert (Hk : 0 < k).
  { unfold k. apply Nat.div_str_pos. lia. }
  destruct (Nat.ltb_spec 0 k); [|lia].
  repeat split.
Qed.

(** One [update] calls [compress_n] at most twice; when bytes were buffered
    and something is compressed, the first call is for one block, which
    starts with the buffered bytes. *)
Theorem update_at_most_two_calls (x : list Z) (w : Machine) :
  buffer_not_full MD w ->
  exists calls,
    compressed (snd (update MD x w)) = compressed w ++ calls /\
    length calls <= 2 /\
    (m_buffer (self w) <> [] ->
     forall c rest, calls = c :: rest ->
       snd c = 1 /\ firstn (length (m_buffer (self w))) (fst c) = m_buffer (self w)).
Proof.
  intros Hb. rewrite update_returns by exact Hb.
  exists (update_calls MD (m_buffer (self w)) x).
  split; [reflexivity|].
  unfold update_calls, bulk_calls.
  destruct (length (m_buffer (self w)) + length x <? block_bytes MD).
  - split; [cbn; lia|]. intros _ c rest E. discriminate.
  - destruct (Nat.eqb_spec (length (m_buffer (self w))) 0) as [E0|E0].
    + split.
      * destruct (0 <? length x / block_bytes MD); cbn; lia.
      * intros Hne. destruct (m_buffer (self w)); [congruence|discriminate].
    + split.
      * destruct (0 <? _); cbn; lia.
      * intros _ c rest E. injection E as <- _. cbn [fst snd].
        split; [reflexivity|].
        rewrite firstn_app, Nat.sub_diag, firstn_all, firstn_O. apply app_nil_r.
Qed.

(** ** Outcomes of [final] *)

(** From a buffer that is not full, the only way [final] fails is the size
    check on the output span: it returns exactly when the span has at least
    [output_bytes] bytes, and throws at that check otherwise; the check that
    room is left for the counter never fails. *)
Theorem final_returns_iff_output_fits (w : Machine) :
  buffer_not_full MD w ->
  (fst (final MD w) = Returned tt <-> output_bytes MD <= length (output w)) /\
  (fst (final MD w) = Thrown Assert_output_size <->
   length (output w) < output_bytes MD).
Proof.
  intros Hb.
  destruct (Nat.le_gt_cases (output_bytes MD) (length (output w))) as [Hs|Hs].
  - rewrite final_returns by assumption. cbn [fst].
    split; split; intros H; try assumption; try reflexivity; try discriminate; lia.
  - rewrite final_throws by assumption. cbn [fst].
    split; split; intros H; try assumption; try reflexivity; try discriminate; lia.
Qed.

(** A [final] that fails on the output span is not undone: the padding has
    been compressed, the buffer is empty and the byte counter is kept, not
    cleared.  A second [final] with a span that fits returns, after
    compressing one more block of padding with the same bit count. *)
Theorem failed_final_is_not_rolled_back (w : Machine) (out2 : list Z) :
  buffer_not_full MD w ->
  length (output w) < output_bytes MD ->
  output_bytes MD <= length out2 ->
  let buf := m_buffer (self w) in
  let count := m_count (self w) in
  let w1 := snd (final MD w) in
  self w1 =
    {| m_digest := apply_calls MD (m_digest (self w)) (final_calls MD buf count);
       m_count := count;
       m_buffer := [] |} /\
  fst (final MD (with_output out2 w1)) = Returned tt /\
  compressed (snd (final MD (with_output out2 w1))) =
    compressed w ++ final_calls MD buf count
      ++ [([marker_byte MD] ++ repeat 0%Z (block_bytes MD - 9)
             ++ counter_field MD count, 1)].
Proof.
  intros Hb Hs Hs2 buf count w1. md_bounds. subst w1.
  rewrite final_throws by assumption. cbn [snd].
  assert (Hb1 : buffer_not_full MD (with_output out2 (padded MD w))).
  { unfold buffer_not_full. cbn. lia. }
  rewrite final_returns by assumption.
  refine (conj eq_refl (conj eq_refl _)).
  unfold after_final, padded, with_output.
  cbn [snd compressed self m_buffer m_count]. fold buf. fold count.
  rewrite <- app_assoc. do 2 f_equal.
  unfold final_calls, finalize_calls. cbn [app length].
  destruct (Nat.ltb_spec (block_bytes MD - 1) (ctr_bytes MD)); [lia|].
  replace (block_bytes MD - 8 - 1) with (block_bytes MD - 9) by lia.
  reflexivity.
Qed.

(** ** A whole message *)

(** What [update] calls leave in a cleared engine. *)
Lemma cleared_run (chunks : list (list Z)) (out : list Z) (log : list (list Z * nat)) :
  exists w2 calls,
    update_each MD chunks {| self := cleared MD; output := out; compressed := log |}
      = (Returned tt, w2) /\
    m_digest (self w2) = apply_calls MD (init MD) calls /\
    compressed w2 = log ++ calls /\
    compressed_bytes calls ++ m_buffer (self w2) = concat chunks /\
    Forall (whole_blocks MD) calls /\
    length (m_buffer (self w2)) = length (concat chunks) mod block_bytes MD /\
    m_count (self w2) = wrap64 (Z.of_nat (length (concat chunks))) /\
    output w2 = out /\
    buffer_not_full MD w2.
Proof.
  pose proof (cleared_well_formed MD out log) as Hw1.
  destruct (update_each_absorbed MD chunks _ Hw1) as (w2 & R2 & A2).
  pose proof (absorbed_well_formed MD _ _ _ A2) as [Hb2 _].
  destruct A2 as (calls & Hd & Hn & Ho & Hl & Hbytes & Hf & Hw).
  cbn [self compressed output cleared m_buffer m_count m_digest app] in *.
  rewrite Z.add_0_l in Hn.
  exists w2, calls.
  refine (conj R2 (conj Hd (conj Hl (conj Hbytes (conj Hw (conj _ (conj Hn (conj Ho Hb2)))))))).
  pose proof (whole_blocks_length MD calls Hw) as L.
  pose proof (f_equal (@length Z) Hbytes) as E. rewrite length_app, L in E.
  unfold buffer_not_full in Hf.
  apply Nat.mod_unique with (q := list_sum (map snd calls)); lia.
Qed.

Lemma length_md_padding (len : nat) :
  len + length (md_padding MD len) =
  ((len + ctr_bytes MD) / block_bytes MD + 1) * block_bytes MD.
Proof.
  md_bounds. unfold md_padding, padding_zeros.
  rewrite !length_app, repeat_length, length_counter_field. cbn [length].
  pose proof (Nat.div_mod_eq len (block_bytes MD)) as E.
  pose proof (Nat.mod_upper_bound len (block_bytes MD)) as U.
  set (q := len / block_bytes MD) in *. set (r := len mod block_bytes MD) in *.
  destruct (Nat.ltb_spec (block_bytes MD - (r + 1)) (ctr_bytes MD)) as [Hlt|Hge].
  - replace ((len + ctr_bytes MD) / block_bytes MD) with (q + 1).
    + nia.
    + apply Nat.div_unique with (r := r + ctr_bytes MD - block_bytes MD); nia.
  - replace ((len + ctr_bytes MD) / block_bytes MD) with q.
    + nia.
    + apply Nat.div_unique with (r := r + ctr_bytes MD); nia.
Qed.

(** The calls of a whole message: [clear], the [update] calls, [final]. *)
Lemma message_run (chunks : list (list Z)) (w0 : Machine) :
  let m := concat chunks in
  exists w2 calls,
    update_each MD chunks
      {| self := cleared MD; output := output w0; compressed := compressed w0 |}
      = (Returned tt, w2) /\
    buffer_not_full MD w2 /\ output w2 = output w0 /\
    compressed (padded MD w2) = compressed w0 ++ calls /\
    m_digest (self (padded MD w2)) = apply_calls MD (init MD) calls /\
    Forall (whole_blocks MD) calls /\
    compressed_bytes calls = m ++ md_padding MD (length m).
Proof.
  intros m.
  destruct (cleared_run chunks (output w0) (compressed w0))
    as (w2 & calls & R2 & Hd & Hl & Hbytes & Hw & Hlen & Hn & Ho & Hb2).
  set (fc := final_calls MD (m_buffer (self w2)) (m_count (self w2))).
  exists w2, (calls ++ fc).
  refine (conj R2 (conj Hb2 (conj Ho (conj _ (conj _ (conj _ _)))))).
  - unfold padded. cbn [compressed]. fold fc. rewrite Hl. now rewrite app_assoc.
  - unfold padded. cbn [self m_digest]. fold fc. rewrite Hd.
    unfold apply_calls. now rewrite fold_left_app.
  - apply Forall_app. split; [exact Hw|]. now apply final_calls_whole_blocks.
  - unfold compressed_bytes. rewrite map_app, concat_app.
    fold (compressed_bytes calls). fold (compressed_bytes fc).
    unfold fc. rewrite final_calls_bytes by exact Hb2.
    rewrite app_assoc, Hbytes. fold m. f_equal.
    unfold md_padding, padding_zeros.
    fold m in Hlen. rewrite Hlen, Hn, counter_field_wrap. reflexivity.
Qed.

Lemma message_run_compressed (chunks : list (list Z)) (w0 : Machine) :
  exists w2,
    update_each MD chunks
      {| self := cleared MD; output := output w0; compressed := compressed w0 |}
      = (Returned tt, w2) /\
    buffer_not_full MD w2 /\
    compressed (snd ((clear MD ;; update_each MD chunks ;; final MD) w0)) =
    compressed (padded MD w2).
Proof.
  destruct (message_run chunks w0) as (w2 & calls & R2 & Hb2 & _).
  exists w2. refine (conj R2 (conj Hb2 _)).
  unfold bind at 1. rewrite clear_returns. unfold bind. rewrite R2.
  rewrite compressed_after_final by exact Hb2. reflexivity.
Qed.

(** A message of [L] bytes is compressed, padding included, as
    [(L + ctr_bytes) / block_bytes + 1] blocks: the least number of blocks
    that hold the message, the marker byte and the counter area. *)
Theorem message_block_count (chunks : list (list Z)) (w0 : Machine) :
  let L := length (concat chunks) in
  exists calls,
    compressed (snd ((clear MD ;; update_each MD chunks ;; final MD) w0)) =
      compressed w0 ++ calls /\
    list_sum (map snd calls) = (L + ctr_bytes MD) / block_bytes MD + 1 /\
    (L + ctr_bytes MD) / block_bytes MD * block_bytes MD < L + 1 + ctr_bytes MD.
Proof.
  intros L. md_bounds.
  destruct (message_run chunks w0)
    as (w2 & calls & R2 & Hb2 & _ & Hc & _ & Hw & Hbytes).
  destruct (message_run_compressed chunks w0) as (w2' & R2' & _ & E).
  rewrite R2 in R2'. injection R2' as <-.
  exists calls. rewrite E. refine (conj Hc (conj _ _)).
  - pose proof (whole_blocks_length MD calls Hw) as Len.
    rewrite Hbytes, length_app, length_md_padding in Len. fold L in Len.
    apply Nat.mul_cancel_r in Len; [now symmetry | lia].
  - pose proof (Nat.Div0.mul_div_le (L + ctr_bytes MD) (block_bytes MD)). lia.
Qed.

(** After [clear] and any [update] calls absorbing the bytes [m], the buffer
    holds the bytes of [m] after its last whole block, what was compressed
    is [m] up to there, and the byte counter is the length of [m] modulo
    [2^64]. *)
Theorem buffer_holds_tail (chunks : list (list Z)) (w0 : Machine) :
  let m := concat chunks in
  let whole := length m / block_bytes MD * block_bytes MD in
  let r := (clear MD ;; update_each MD chunks) w0 in
  fst r = Returned tt /\
  m_buffer (self (snd r)) = skipn whole m /\
  m_count (self (snd r)) = (Z.of_nat (length m) mod 2 ^ 64)%Z /\
  exists calls,
    compressed (snd r) = compressed w0 ++ calls /\
    compressed_bytes calls = firstn whole m.
Proof.
  intros m whole r. md_bounds. subst r.
  destruct (cleared_run chunks (output w0) (compressed w0))
    as (w2 & calls & R2 & _ & Hl & Hbytes & Hw & Hlen & Hn & _ & _).
  unfold bind. rewrite clear_returns, R2. cbn [fst snd]. fold m in Hbytes, Hlen, Hn.
  assert (Lb : length (compressed_bytes calls) = whole).
  { pose proof (f_equal (@length Z) Hbytes) as E. rewrite length_app, Hlen in E.
    pose proof (Nat.div_mod_eq (length m) (block_bytes MD)). unfold whole. lia. }
  refine (conj eq_refl (conj _ (conj Hn _))).
  - rewrite <- Hbytes, <- Lb, skipn_app, Nat.sub_diag, skipn_all. reflexivity.
  - exists calls. split; [exact Hl|].
    rewrite <- Hbytes, <- Lb, firstn_app, Nat.sub_diag, firstn_all, firstn_O.
    now rewrite app_nil_r.
Qed.

(** The hash of a message, as a function: with a compression function that
    processes blocks one after the other, [clear], [update] calls and a
    [final] whose output span fits write the serialized digest state reached
    from the initial value by compressing, block after block, the message
    followed by its padding. *)
Theorem digest_of_padded_message (chunks : list (list Z)) (w0 : Machine) :
  compresses_blockwise MD ->
  output_bytes MD <= length (output w0) ->
  let m := concat chunks in
  let blocks := (length m + ctr_bytes MD) / block_bytes MD + 1 in
  let digest := one_by_one MD blocks (init MD) (m ++ md_padding MD (length m)) in
  let r := (clear MD ;; update_each MD chunks ;; final MD) w0 in
  fst r = Returned tt /\
  output (snd r) =
    serialized_digest MD digest
      ++ skipn (length (serialized_digest MD digest)) (output w0).
Proof.
  intros Hbw Hs m blocks digest r. md_bounds. subst r.
  destruct (message_run chunks w0)
    as (w2 & calls & R2 & Hb2 & Ho & Hc & Hd & Hw & Hbytes).
  unfold bind. rewrite clear_returns, R2.
  rewrite final_returns by (assumption || now rewrite Ho).
  cbn [fst snd]. split; [reflexivity|].
  unfold after_final. cbn [output].
  assert (E : m_digest (self (padded MD w2)) = digest).
  { rewrite Hd, apply_calls_one_by_one by assumption.
    fold m in Hbytes. rewrite Hbytes. unfold digest. f_equal.
    pose proof (whole_blocks_length MD calls Hw) as Len.
    rewrite Hbytes, length_app, length_md_padding in Len.
    apply Nat.mul_cancel_r in Len; [now symmetry | lia]. }
  rewrite E, Ho. reflexivity.
Qed.

(** ** The padding marks the end of the message *)

Lemma app_same_length (a a' b b' : list Z) :
  length a = length a' -> a ++ b = a' ++ b' -> a = a' /\ b = b'.
Proof.
  revert a'. induction a as [|x a IH]; intros [|x' a'] Hlen E;
    try discriminate; cbn in *.
  - now split.
  - injection E as -> E. destruct (IH a' (eq_add_S _ _ Hlen) E) as [-> ->].
    now split.
Qed.

Lemma md_padding_injective (m1 m2 : list Z) :
  (Z.of_nat (length m1) < 2 ^ 61)%Z -> (Z.of_nat (length m2) < 2 ^ 61)%Z ->
  m1 ++ md_padding MD (length m1) = m2 ++ md_padding MD (length m2) ->
  m1 = m2.
Proof.
  intros H1 H2 E.
  assert (Hcf : counter_field MD (Z.of_nat (length m1)) =
                counter_field MD (Z.of_nat (length m2))).
  { unfold md_padding in E. rewrite !app_assoc in E.
    pose proof (f_equal (@length Z) E) as Len.
    rewrite (length_app _ (counter_field _ _)) in Len.
    rewrite (length_app _ (counter_field MD (Z.of_nat (length m2)))) in Len.
    rewrite !length_counter_field in Len.
    apply app_same_length in E; [apply E | lia]. }
  apply (f_equal (read_counter_field MD)) in Hcf.
  rewrite !read_counter_field_counter_field in Hcf.
  rewrite !Z.mod_small in Hcf by lia.
  assert (Hlen : length m1 = length m2) by lia.
  apply app_same_length in E; [apply E | exact Hlen].
Qed.

(** Two messages shorter than [2^61] bytes that send the same bytes to
    [compress_n], padding included, are the same message, however they were
    cut into [update] calls. *)
Theorem compressed_stream_determines_message
  (chunks1 chunks2 : list (list Z)) (w1 w2 : Machine) :
  (Z.of_nat (length (concat chunks1)) < 2 ^ 61)%Z ->
  (Z.of_nat (length (concat chunks2)) < 2 ^ 61)%Z ->
  compressed w1 = [] -> compressed w2 = [] ->
  compressed_bytes
    (compressed (snd ((clear MD ;; update_each MD chunks1 ;; final MD) w1))) =
  compressed_bytes
    (compressed (snd ((clear MD ;; update_each MD chunks2 ;; final MD) w2))) ->
  concat chunks1 = concat chunks2.
Proof.
  intros H1 H2 E1 E2 E.
  destruct (message_run chunks1 w1) as (v1 & c1 & R1 & _ & _ & Hc1 & _ & _ & Hb1).
  destruct (message_run chunks2 w2) as (v2 & c2 & R2 & _ & _ & Hc2 & _ & _ & Hb2).
  destruct (message_run_compressed chunks1 w1) as (v1' & R1' & _ & C1).
  destruct (message_run_compressed chunks2 w2) as (v2' & R2' & _ & C2).
  rewrite R1 in R1'. injection R1' as <-.
  rewrite R2 in R2'. injection R2' as <-.
  rewrite C1, C2, Hc1, Hc2, E1, E2 in E. cbn [app] in E.
  rewrite Hb1, Hb2 in E.
  now apply md_padding_injective.
Qed.

End EngineMore.

(** * The benchmark timer *)

(** ** Timer names *)

Lemma string_length_append (a b : String.string) :
  String.length (String.append a b) = String.length a + String.length b.
Proof. induction a as [|c a IH]; cbn; [reflexivity | now rewrite IH]. Qed.

Lemma string_append_nil_r (a : String.string) : String.append a "" = a.
Proof. induction a as [|c a IH]; cbn; [reflexivity | now rewrite IH]. Qed.

Lemma string_append_cancel_l (a b c : String.string) :
  String.append a b = String.append a c -> b = c.
Proof.
  induction a as [|x a IH]; cbn; intros E; [exact E|].
  injection E as E. now apply IH.
Qed.

Lemma string_append_cancel_r (a b c : String.string) :
  String.append a c = String.append b c -> a = b.
Proof.
  revert b. induction a as [|x a IH]; intros [|y b] E; cbn in E.
  - reflexivity.
  - apply (f_equal String.length) in E. cbn in E.
    rewrite string_length_append in E. lia.
  - apply (f_equal String.length) in E. cbn in E.
    rewrite string_length_append in E. lia.
  - injection E as -> E. f_equal. now apply IH.
Qed.

Lemma string_prefix_append (a b : String.string) :
  String.prefix a (String.append a b) = true.
Proof.
  induction a as [|x a IH]; cbn; [now destruct b|].
  destruct (Ascii.ascii_dec x x); [exact IH | congruence].
Qed.

Lemma format_timer_name_suffixed (name provider : String.string) :
  provider <> ""%string -> provider <> "base"%string ->
  Timer.format_timer_name name provider =
  String.append name (String.append " [" (String.append provider "]"))%string.
Proof.
  intros H1 H2. unfold Timer.format_timer_name.
  destruct (String.eqb_spec provider ""%string); [congruence|].
  destruct (String.eqb_spec provider "base"%string); [congruence|].
  reflexivity.
Qed.

Lemma format_timer_name_plain (name provider : String.string) :
  provider = ""%string \/ provider = "base"%string ->
  Timer.format_timer_name name provider = name.
Proof. intros [-> | ->]; reflexivity. Qed.

Lemma format_timer_name_longer (name provider : String.string) :
  provider <> ""%string -> provider <> "base"%string ->
  Timer.format_timer_name name provider <> name.
Proof.
  intros H1 H2 E. rewrite format_timer_name_suffixed in E by assumption.
  apply (f_equal String.length) in E.
  rewrite !string_length_append in E. cbn in E. lia.
Qed.

(** The timer name starts with the name given, and is the name alone
    exactly when the provider is empty or ["base"]. *)
Theorem format_timer_name_keeps_name (name provider : String.string) :
  String.prefix name (Timer.format_timer_name name provider) = true /\
  (Timer.format_timer_name name provider = name <->
   provider = ""%string \/ provider = "base"%string).
Proof.
  destruct (String.eqb_spec provider ""%string) as [E1|N1];
    [|destruct (String.eqb_spec provider "base"%string) as [E2|N2]].
  - rewrite format_timer_name_plain by now left.
    split; [|tauto].
    rewrite <- (string_append_nil_r name) at 2. apply string_prefix_append.
  - rewrite format_timer_name_plain by now right.
    split; [|tauto].
    rewrite <- (string_append_nil_r name) at 2. apply string_prefix_append.
  - split.
    + rewrite format_timer_name_suffixed by assumption. apply string_prefix_append.
    + split; [|tauto]. intros E.
      now apply format_timer_name_longer in E.
Qed.

(** Under one name, two providers give the same timer name only when they
    are the same provider, or when both are among the empty one and
    ["base"]. *)
Theorem format_timer_name_tells_providers_apart
  (name p1 p2 : String.string) :
  Timer.format_timer_name name p1 = Timer.format_timer_name name p2 ->
  p1 = p2 \/
  ((p1 = ""%string \/ p1 = "base"%string) /\
   (p2 = ""%string \/ p2 = "base"%string)).
Proof.
  intros E.
  assert (D : forall p : String.string,
             (p = ""%string \/ p = "base"%string) \/
             (p <> ""%string /\ p <> "base"%string)).
  { intros p. destruct (String.eqb_spec p ""%string); [now left; left|].
    destruct (String.eqb_spec p "base"%string); [now left; right|].
    now right. }
  destruct (D p1) as [P1|[A1 B1]], (D p2) as [P2|[A2 B2]].
  - right. now split.
  - exfalso. rewrite (format_timer_name_plain name p1 P1) in E.
    symmetry in E. now apply format_timer_name_longer in E.
  - exfalso. rewrite (format_timer_name_plain name p2 P2) in E.
    now apply format_timer_name_longer in E.
  - left. rewrite !format_timer_name_suffixed in E by assumption.
    apply string_append_cancel_l, string_append_cancel_l in E.
    now apply string_append_cancel_r in E.
Qed.

(** ** Starting and stopping *)

Section TimerFacts.

Variable double : Type.
Variable u64_times_double : Z -> double -> double.
Variable double_to_size_t : double -> Z.

Local Abbreviation stop := (Timer.stop double u64_times_double double_to_size_t).
Local Abbreviation start := (Timer.start double u64_times_double double_to_size_t).
Local Abbreviation measure := (Timer.measure double u64_times_double double_to_size_t).
Local Abbreviation measure_all :=
  (Timer.measure_all double u64_times_double double_to_size_t).

Lemma stop_not_running (now cycles : Z) (x : Timer.t double) :
  Timer.m_timer_start double x = 0%Z -> stop now cycles x = x.
Proof. intros E. unfold Timer.stop. rewrite E. reflexivity. Qed.

Lemma stop_leaves_stopped (now cycles : Z) (x : Timer.t double) :
  Timer.m_timer_start double (stop now cycles x) = 0%Z.
Proof.
  unfold Timer.stop.
  destruct (Z.eqb_spec (Timer.m_timer_start double x) 0) as [E|E]; cbn; [exact E|reflexivity].
Qed.

(** A second [stop] changes nothing, whatever the clocks read: only the
    first [stop] after a [start] counts an event. *)
Theorem stop_twice_is_stop_once (now1 cycles1 now2 cycles2 : Z) (x : Timer.t double) :
  stop now2 cycles2 (stop now1 cycles1 x) = stop now1 cycles1 x.
Proof. apply stop_not_running, stop_leaves_stopped. Qed.

Lemma measure_advancing (x : Timer.t double) (r : Timer.readings) :
  Timer.m_timer_start double x = 0%Z ->
  (0 < Timer.at_start r < Timer.at_stop r)%Z -> (Timer.at_stop r < 2 ^ 64)%Z ->
  Timer.m_time_used double (measure x r) =
    wrap64 (Timer.m_time_used double x + (Timer.at_stop r - Timer.at_start r)) /\
  Timer.m_event_count double (measure x r) =
    wrap64 (Timer.m_event_count double x + 1) /\
  Timer.m_timer_start double (measure x r) = 0%Z.
Proof.
  intros E Hr Hmax. unfold Timer.measure, Timer.start.
  rewrite (stop_not_running _ _ x E).
  unfold Timer.stop. cbn.
  destruct (Z.eqb_spec (Timer.at_start r) 0) as [Z0|_]; [lia|]. cbn.
  destruct (Z.ltb_spec (Timer.at_start r) (Timer.at_stop r)); [|lia].
  rewrite (wrap64_idem (Timer.at_stop r - Timer.at_start r))
    by (unfold is_uint64; lia).
  repeat split.
Qed.

(** Measurements add up: from a stopped timer, after [start]/[stop] pairs
    during which the clock advances (and never reads 0 at a [start]), the
    time used has grown by the sum of the intervals and the event count by
    the number of pairs, both modulo [2^64], and the timer is stopped. *)
Theorem measurements_add_up (rs : list Timer.readings) (x : Timer.t double) :
  Timer.m_timer_start double x = 0%Z ->
  is_uint64 (Timer.m_time_used double x) ->
  is_uint64 (Timer.m_event_count double x) ->
  Forall (fun r => 0 < Timer.at_start r < Timer.at_stop r /\
                   Timer.at_stop r < 2 ^ 64)%Z rs ->
  Timer.m_time_used double (measure_all rs x) =
    ((Timer.m_time_used double x + Timer.total_time rs) mod 2 ^ 64)%Z /\
  Timer.m_event_count double (measure_all rs x) =
    ((Timer.m_event_count double x + Z.of_nat (length rs)) mod 2 ^ 64)%Z /\
  Timer.m_timer_start double (measure_all rs x) = 0%Z.
Proof.
  enough (G :
    Timer.m_timer_start double x = 0%Z ->
    is_uint64 (Timer.m_time_used double x) ->
    is_uint64 (Timer.m_event_count double x) ->
    Forall (fun r => 0 < Timer.at_start r < Timer.at_stop r /\
                     Timer.at_stop r < 2 ^ 64)%Z rs ->
    Timer.m_time_used double (measure_all rs x) =
      wrap64 (Timer.m_time_used double x + Timer.total_time rs) /\
    Timer.m_event_count double (measure_all rs x) =
      wrap64 (Timer.m_event_count double x + Z.of_nat (length rs)) /\
    Timer.m_timer_start double (measure_all rs x) = 0%Z) by exact G.
  intros E Ht He Hrs. revert x E Ht He.
  induction Hrs as [|r rs [Hr Hmax] _ IH]; intros x E Ht He.
  - change (measure_all [] x) with x.
    change (Timer.total_time []) with 0%Z. change (Z.of_nat (length (@nil Timer.readings))) with 0%Z.
    rewrite !Z.add_0_r, !wrap64_idem by assumption. now repeat split.
  - change (measure_all (r :: rs) x) with (measure_all rs (measure x r)).
    destruct (measure_advancing x r E Hr Hmax) as (Tu & Ec & Ts).
    destruct (IH (measure x r) Ts) as (Tu' & Ec' & Ts').
    { rewrite Tu. apply wrap64_range. }
    { rewrite Ec. apply wrap64_range. }
    rewrite Tu', Ec', Tu, Ec, !wrap64_add_l.
    refine (conj _ (conj _ Ts')); f_equal.
    + change (Timer.total_time (r :: rs))
        with (Timer.at_stop r - Timer.at_start r + Timer.total_time rs)%Z. lia.
    + change (length (r :: rs)) with (S (length rs)). lia.
Qed.

(** Two readings a measurement does not survive.  A [start] while the clock
    reads 0 leaves the timer stopped, so the [stop] that follows records
    neither time nor an event.  A [stop] at a clock reading not after that
    of the [start] counts the event and adds no time. *)
Theorem measure_clock_edge_cases (x : Timer.t double) (r : Timer.readings) :
  Timer.m_timer_start double x = 0%Z ->
  (Timer.at_start r = 0%Z ->
   Timer.m_time_used double (measure x r) = Timer.m_time_used double x /\
   Timer.m_event_count double (measure x r) = Timer.m_event_count double x) /\
  (Timer.at_start r <> 0%Z -> (Timer.at_stop r <= Timer.at_start r)%Z ->
   Timer.m_time_used double (measure x r) = Timer.m_time_used double x /\
   Timer.m_event_count double (measure x r) =
     ((Timer.m_event_count double x + 1) mod 2 ^ 64)%Z).
Proof.
  intros E. unfold Timer.measure, Timer.start.
  rewrite (stop_not_running _ _ x E). unfold Timer.stop. cbn. split.
  - intros ->. cbn. split; reflexivity.
  - intros Hs Hle.
    destruct (Z.eqb_spec (Timer.at_start r) 0) as [Z0|_]; [contradiction|]. cbn.
    destruct (Z.ltb_spec (Timer.at_start r) (Timer.at_stop r)); [lia|].
    split; reflexivity.
Qed.

(** ** Ordering timers *)

Lemma string_lt_lts (a b : String.string) :
  Timer.string_lt a b = true <-> OrderedTypeEx.String_as_OT.lt a b.
Proof.
  unfold Timer.string_lt. rewrite <- OrderedTypeEx.String_as_OT.cmp_lt.
  unfold OrderedTypeEx.String_as_OT.cmp.
  destruct (String.compare a b); split; congruence.
Qed.

Lemma string_lt_irrefl (a : String.string) : Timer.string_lt a a = false.
Proof.
  destruct (Timer.string_lt a a) eqn:E; [|reflexivity].
  apply string_lt_lts in E.
  exfalso. apply (OrderedTypeEx.String_as_OT.lt_not_eq _ _ E). reflexivity.
Qed.

Lemma string_lt_trans (a b c : String.string) :
  Timer.string_lt a b = true -> Timer.string_lt b c = true ->
  Timer.string_lt a c = true.
Proof.
  rewrite !string_lt_lts. apply OrderedTypeEx.String_as_OT.lt_trans.
Qed.

Lemma string_lt_total (a b : String.string) :
  Timer.string_lt a b = false -> Timer.string_lt b a = false -> a = b.
Proof.
  unfold Timer.string_lt. rewrite (String.compare_antisym b a).
  destruct (String.compare a b) eqn:E; cbn; try discriminate.
  intros _ _. now apply String.compare_eq_iff.
Qed.

(** [operator<] is a strict order: no timer is below itself, and below is
    transitive. *)
Theorem less_is_strict_order (a b c : Timer.t double) :
  Timer.less double a a = false /\
  (Timer.less double a b = true -> Timer.less double b c = true ->
   Timer.less double a c = true).
Proof.
  unfold Timer.less. split.
  - rewrite String.eqb_refl. cbn. apply string_lt_irrefl.
  - destruct (String.eqb_spec (Timer.m_doing double a) (Timer.m_doing double b)) as [Eab|Nab];
    destruct (String.eqb_spec (Timer.m_doing double b) (Timer.m_doing double c)) as [Ebc|Nbc];
    cbn [negb]; intros Hab Hbc.
    + rewrite Eab, Ebc, String.eqb_refl. cbn. eapply string_lt_trans; eassumption.
    + rewrite Eab.
      destruct (String.eqb_spec (Timer.m_doing double b) (Timer.m_doing double c));
        [contradiction | exact Hbc].
    + rewrite <- Ebc.
      destruct (String.eqb_spec (Timer.m_doing double a) (Timer.m_doing double b));
        [contradiction | exact Hab].
    + pose proof (string_lt_trans _ _ _ Hab Hbc) as Hac.
      destruct (String.eqb_spec (Timer.m_doing double a) (Timer.m_doing double c)) as [Eac|_];
        [|exact Hac].
      rewrite Eac, string_lt_irrefl in Hac. discriminate.
Qed.

(** Two timers neither of which is below the other do the same thing under
    the same name: [operator<] orders timers by what they do and then by
    name, and leaves no other pair unordered. *)
Theorem less_orders_by_doing_then_name (a b : Timer.t double) :
  Timer.less double a b = false -> Timer.less double b a = false ->
  Timer.m_doing double a = Timer.m_doing double b /\
  Timer.m_name double a = Timer.m_name double b.
Proof.
  unfold Timer.less.
  rewrite (String.eqb_sym (Timer.m_doing double b)).
  destruct (String.eqb_spec (Timer.m_doing double a) (Timer.m_doing double b)) as [E|N];
    cbn [negb]; intros H1 H2.
  - split; [exact E | now apply string_lt_total].
  - exfalso. apply N. now apply string_lt_total.
Qed.

End TimerFacts.

(** * The further properties on inputs *)

Lemma update_returns_and_counts_witness :
  let w := Toy.fed Toy.MD32 60 [] in
  buffer_not_full Toy.MD32 w /\
  fst (update Toy.MD32 (Toy.message 70) w) = Returned tt /\
  m_count (self (snd (update Toy.MD32 (Toy.message 70) w))) = 130%Z.
Proof.
  intros w.
  assert (Hb : buffer_not_full Toy.MD32 w) by (vm_compute; lia).
  destruct (update_returns_and_counts Toy.MD32 (Toy.message 70) w Hb)
    as (R & _ & C & _).
  refine (conj Hb (conj R _)). rewrite C. vm_compute. reflexivity.
Defined.

Lemma update_block_accounting_witness :
  let w := Toy.fed Toy.MD32 60 [] in
  buffer_not_full Toy.MD32 w /\
  length (m_buffer (self (snd (update Toy.MD32 (Toy.message 70) w)))) = 2.
Proof.
  intros w.
  assert (Hb : buffer_not_full Toy.MD32 w) by (vm_compute; lia).
  destruct (update_block_accounting Toy.MD32 (Toy.message 70) w Hb)
    as (calls & _ & _ & Hlen & _).
  split; [exact Hb|]. rewrite Hlen. vm_compute. reflexivity.
Defined.

Lemma update_short_input_only_buffers_witness :
  let w := Toy.fed Toy.MD32 10 [] in
  length (m_buffer (self w)) + length (Toy.message 5) < block_bytes Toy.MD32 /\
  compressed (snd (update Toy.MD32 (Toy.message 5) w)) = [] /\
  m_buffer (self (snd (update Toy.MD32 (Toy.message 5) w))) =
    Toy.message 10 ++ Toy.message 5.
Proof.
  intros w.
  assert (H : length (m_buffer (self w)) + length (Toy.message 5)
              < block_bytes Toy.MD32) by (vm_compute; lia).
  destruct (update_short_input_only_buffers Toy.MD32 (Toy.message 5) w H)
    as (Hc & _ & Hbuf).
  refine (conj H (conj _ _)).
  - rewrite Hc. vm_compute. reflexivity.
  - rewrite Hbuf. vm_compute. reflexivity.
Defined.

Lemma update_aligned_input_one_call_witness :
  let w := Toy.start Toy.MD32 [] in
  m_buffer (self w) = [] /\
  block_bytes Toy.MD32 <= length (Toy.message 130) /\
  compressed (snd (update Toy.MD32 (Toy.message 130) w)) =
    [(Toy.message 128, 2)] /\
  m_buffer (self (snd (update Toy.MD32 (Toy.message 130) w))) = [129; 130]%Z.
Proof.
  intros w.
  assert (He : m_buffer (self w) = []) by reflexivity.
  assert (Hx : block_bytes Toy.MD32 <= length (Toy.message 130))
    by (vm_compute; lia).
  destruct (update_aligned_input_one_call Toy.MD32 (Toy.message 130) w He Hx)
    as (Hc & _ & Hbuf).
  refine (conj He (conj Hx (conj _ _))).
  - rewrite Hc. vm_compute. reflexivity.
  - rewrite Hbuf. vm_compute. reflexivity.
Defined.

Lemma update_at_most_two_calls_witness :
  let w := Toy.fed Toy.MD32 60 [] in
  buffer_not_full Toy.MD32 w /\
  exists calls,
    compressed (snd (update Toy.MD32 (Toy.message 70) w)) = compressed w ++ calls /\
    length calls <= 2.
Proof.
  intros w.
  assert (Hb : buffer_not_full Toy.MD32 w) by (vm_compute; lia).
  destruct (update_at_most_two_calls Toy.MD32 (Toy.message 70) w Hb)
    as (calls & Hc & Hlen & _).
  split; [exact Hb|]. exists calls. now split.
Defined.

Lemma final_returns_iff_output_fits_witness :
  let w := Toy.fed Toy.MD32 3 (repeat 9%Z 10) in
  buffer_not_full Toy.MD32 w /\
  fst (final Toy.MD32 w) = Thrown Assert_output_size.
Proof.
  intros w.
  assert (Hb : buffer_not_full Toy.MD32 w) by (vm_compute; lia).
  split; [exact Hb|].
  apply (proj2 (final_returns_iff_output_fits Toy.MD32 w Hb)).
  vm_compute. lia.
Defined.

Lemma failed_final_is_not_rolled_back_witness :
  let w := Toy.fed Toy.MD32 3 (repeat 9%Z 10) in
  let out2 := repeat 0%Z 16 in
  buffer_not_full Toy.MD32 w /\
  length (output w) < output_bytes Toy.MD32 /\
  output_bytes Toy.MD32 <= length out2 /\
  m_count (self (snd (final Toy.MD32 w))) = 3%Z /\
  fst (final Toy.MD32 (with_output out2 (snd (final Toy.MD32 w)))) = Returned tt.
Proof.
  intros w out2.
  assert (Hb : buffer_not_full Toy.MD32 w) by (vm_compute; lia).
  assert (Hs : length (output w) < output_bytes Toy.MD32) by (vm_compute; lia).
  assert (Hs2 : output_bytes Toy.MD32 <= length out2) by (vm_compute; lia).
  destruct (failed_final_is_not_rolled_back Toy.MD32 w out2 Hb Hs Hs2)
    as (Hself & Hr & _).
  refine (conj Hb (conj Hs (conj Hs2 (conj _ Hr)))).
  rewrite Hself. vm_compute. reflexivity.
Defined.

Lemma digest_of_padded_message_witness :
  let chunks := [Toy.message 60; Toy.message 70] in
  let w0 := Toy.start Toy.MD32 (repeat 0%Z 16) in
  compresses_blockwise Toy.MD32 /\
  output_bytes Toy.MD32 <= length (output w0) /\
  fst ((clear Toy.MD32 ;; update_each Toy.MD32 chunks ;; final Toy.MD32) w0)
    = Returned tt.
Proof.
  intros chunks w0.
  assert (Hs : output_bytes Toy.MD32 <= length (output w0)) by (vm_compute; lia).
  refine (conj toy_MD32_blockwise (conj Hs _)).
  exact (proj1 (digest_of_padded_message Toy.MD32 chunks w0 toy_MD32_blockwise Hs)).
Defined.

Lemma compressed_stream_determines_message_witness :
  let chunks1 := [firstn 60 (Toy.message 130); skipn 60 (Toy.message 130)] in
  let chunks2 := [Toy.message 130] in
  let w := Toy.start Toy.MD32 [] in
  compressed_bytes
    (compressed (snd ((clear Toy.MD32 ;; update_each Toy.MD32 chunks1 ;; final Toy.MD32) w))) =
  compressed_bytes
    (compressed (snd ((clear Toy.MD32 ;; update_each Toy.MD32 chunks2 ;; final Toy.MD32) w))) /\
  concat chunks1 = concat chunks2.
Proof.
  intros chunks1 chunks2 w.
  assert (E : compressed_bytes
    (compressed (snd ((clear Toy.MD32 ;; update_each Toy.MD32 chunks1 ;; final Toy.MD32) w))) =
  compressed_bytes
    (compressed (snd ((clear Toy.MD32 ;; update_each Toy.MD32 chunks2 ;; final Toy.MD32) w))))
    by (vm_compute; reflexivity).
  split; [exact E|].
  apply (compressed_stream_determines_message Toy.MD32 chunks1 chunks2 w w);
    try reflexivity; exact E.
Defined.

Lemma format_timer_name_tells_providers_apart_witness :
  Timer.format_timer_name "SHA-256"%string ""%string =
    Timer.format_timer_name "SHA-256"%string "base"%string /\
  (""%string = "base"%string \/
   ((""%string = ""%string \/ ""%string = "base"%string) /\
    ("base"%string = ""%string \/ "base"%string = "base"%string))).
Proof.
  split; [reflexivity|].
  exact (format_timer_name_tells_providers_apart
           "SHA-256"%string ""%string "base"%string eq_refl).
Defined.

Lemma measurements_add_up_witness :
  let x := {| Timer.m_name := "SHA-256"%string; Timer.m_doing := "hash"%string;
              Timer.m_buf_size := 1024; Timer.m_event_mult := 1;
              Timer.m_clock_cycle_ratio := 1%Z; Timer.m_clock_speed := 0;
              Timer.m_custom_msg := ""%string;
              Timer.m_time_used := 7; Timer.m_timer_start := 0;
              Timer.m_event_count := 1;
              Timer.m_cpu_cycles_used := 0; Timer.m_cpu_cycles_start := 0 |} in
  let rs := [ {| Timer.at_start := 100; Timer.cycles_at_start := 5;
                 Timer.at_stop := 130; Timer.cycles_at_stop := 9 |};
              {| Timer.at_start := 200; Timer.cycles_at_start := 0;
                 Timer.at_stop := 212; Timer.cycles_at_stop := 0 |} ] in
  Timer.m_time_used Z (Timer.measure_all Z Z.mul (fun d => d) rs x) = 49%Z /\
  Timer.m_event_count Z (Timer.measure_all Z Z.mul (fun d => d) rs x) = 3%Z.
Proof.
  intros x rs.
  destruct (measurements_add_up Z Z.mul (fun d => d) rs x) as (Ht & He & _).
  - reflexivity.
  - vm_compute. split; [discriminate | reflexivity].
  - vm_compute. split; [discriminate | reflexivity].
  - repeat constructor; vm_compute; reflexivity || discriminate.
  - rewrite Ht, He. split; vm_compute; reflexivity.
Defined.

Lemma measure_clock_edge_cases_witness :
  let x := {| Timer.m_name := "SHA-256"%string; Timer.m_doing := "hash"%string;
              Timer.m_buf_size := 1024; Timer.m_event_mult := 1;
              Timer.m_clock_cycle_ratio := 1%Z; Timer.m_clock_speed := 0;
              Timer.m_custom_msg := ""%string;
              Timer.m_time_used := 7; Timer.m_timer_start := 0;
              Timer.m_event_count := 1;
              Timer.m_cpu_cycles_used := 0; Timer.m_cpu_cycles_start := 0 |} in
  let at_zero := {| Timer.at_start := 0; Timer.cycles_at_start := 5;
                    Timer.at_stop := 130; Timer.cycles_at_stop := 9 |} in
  let backwards := {| Timer.at_start := 100; Timer.cycles_at_start := 5;
                      Timer.at_stop := 90; Timer.cycles_at_stop := 9 |} in
  Timer.m_event_count Z (Timer.measure Z Z.mul (fun d => d) x at_zero) = 1%Z /\
  Timer.m_time_used Z (Timer.measure Z Z.mul (fun d => d) x backwards) = 7%Z /\
  Timer.m_event_count Z (Timer.measure Z Z.mul (fun d => d) x backwards) = 2%Z.
Proof.
  intros x at_zero backwards.
  destruct (measure_clock_edge_cases Z Z.mul (fun d => d) x at_zero eq_refl)
    as [Hz _].
  destruct (measure_clock_edge_cases Z Z.mul (fun d => d) x backwards eq_refl)
    as [_ Hb].
  destruct (Hz eq_refl) as [_ Ez].
  destruct Hb as [Tb Eb]; [discriminate | vm_compute; discriminate |].
  refine (conj Ez (conj Tb _)). rewrite Eb. reflexivity.
Defined.

Lemma less_is_strict_order_witness :
  let timer name doing :=
    {| Timer.m_name := name; Timer.m_doing := doing;
       Timer.m_buf_size := 0; Timer.m_event_mult := 1;
       Timer.m_clock_cycle_ratio := 1%Z; Timer.m_clock_speed := 0;
       Timer.m_custom_msg := ""%string;
       Timer.m_time_used := 0; Timer.m_timer_start := 0;
       Timer.m_event_count := 0;
       Timer.m_cpu_cycles_used := 0; Timer.m_cpu_cycles_start := 0 |} in
  Timer.less Z (timer "MD5"%string "hash"%string) (timer "SHA-1"%string "hash"%string) = true /\
  Timer.less Z (timer "SHA-1"%string "hash"%string) (timer "ECDSA"%string "sign"%string) = true /\
  Timer.less Z (timer "MD5"%string "hash"%string) (timer "ECDSA"%string "sign"%string) = true.
Proof.
  intros timer.
  assert (H1 : Timer.less Z (timer "MD5"%string "hash"%string) (timer "SHA-1"%string "hash"%string) = true)
    by reflexivity.
  assert (H2 : Timer.less Z (timer "SHA-1"%string "hash"%string) (timer "ECDSA"%string "sign"%string) = true)
    by reflexivity.
  refine (conj H1 (conj H2 _)).
  exact (proj2 (less_is_strict_order Z (timer "MD5"%string "hash"%string) (timer "SHA-1"%string "hash"%string)
                  (timer "ECDSA"%string "sign"%string)) H1 H2).
Defined.

Lemma less_orders_by_doing_then_name_witness :
  let timer buf_size :=
    {| Timer.m_name := "SHA-256"%string; Timer.m_doing := "hash"%string;
       Timer.m_buf_size := buf_size; Timer.m_event_mult := 1;
       Timer.m_clock_cycle_ratio := 1%Z; Timer.m_clock_speed := 0;
       Timer.m_custom_msg := ""%string;
       Timer.m_time_used := 0; Timer.m_timer_start := 0;
       Timer.m_event_count := 0;
       Timer.m_cpu_cycles_used := 0; Timer.m_cpu_cycles_start := 0 |} in
  Timer.less Z (timer 64%Z) (timer 1024%Z) = false /\
  Timer.less Z (timer 1024%Z) (timer 64%Z) = false /\
  Timer.m_name Z (timer 64%Z) = Timer.m_name Z (timer 1024%Z).
Proof.
  intros timer.
  refine (conj eq_refl (conj eq_refl _)).
  exact (proj2 (less_orders_by_doing_then_name Z (timer 64%Z) (timer 1024%Z)
                  eq_refl eq_refl)).
Defined.
